(** * World Builder: node store, index builder and tree renderer

    A shallow embedding of [world_builder/cli.py] and the properties of
    its node store ([read_node], [slugify], [cmd_add], [cmd_show]), its
    index builder ([build_index]) and its tree renderer ([cmd_tree] and
    the nested [display]).

    - Text.  A Python [str] is a sequence of Unicode code points and is
      modelled as [list N].  [str.strip], [str.splitlines], [str.join],
      the two [re.sub] calls and the comparison of strings are written
      out on code points.  [str.lower] depends on the Unicode tables of
      the interpreter; the program is embedded over it as a parameter
      [lower], and [lower_latin1] is used to run examples.
    - Files.  The data directory is a finite map from file names to
      their text on a case-sensitive file system; [None] is the
      directory that does not exist.  Every entry is a text file that
      decodes.  [Path.stem] drops the last suffix of a name; a leading dot
      opens no suffix.
    - State.  [children] is a dictionary of lists that [display]
      extends in place through an alias; it is a [gmap] threaded through
      the renderer.  [nodes] keeps insertion order and is an association
      list.
    - Output.  A command yields the arguments of its [print] calls, its
      exit status and the directory it leaves.  The output stream is
      taken to accept every text: its encoding is set by the
      environment, not by the program.  Writing a file encodes the text
      as UTF-8, as the program asks, and raises on a surrogate.
    - Recursion.  [display] recurses without bound; its embedding takes
      the depth it may reach and yields [None] beyond it. *)

From Stdlib Require Import NArith ZArith Lia.
From stdpp Require Import gmap list strings relations sorting.

Local Open Scope N_scope.

(** ** Text *)

Abbreviation char := N (only parsing).
Abbreviation str := (list N) (only parsing).

(** Literals of the source are written as UTF-8 strings and decoded to
    code points (one to four bytes per code point). *)
Fixpoint utf8_decode (bs : list N) : str :=
  match bs with
  | [] => []
  | b0 :: r0 =>
    if b0 <? 128 then b0 :: utf8_decode r0 else
    match r0 with
    | [] => []
    | b1 :: r1 =>
      if b0 <? 224 then ((b0 - 192) * 64 + (b1 - 128)) :: utf8_decode r1 else
      match r1 with
      | [] => []
      | b2 :: r2 =>
        if b0 <? 240
        then ((b0 - 224) * 4096 + (b1 - 128) * 64 + (b2 - 128)) :: utf8_decode r2
        else
        match r2 with
        | [] => []
        | b3 :: r3 =>
          ((b0 - 240) * 262144 + (b1 - 128) * 4096 + (b2 - 128) * 64 + (b3 - 128))
            :: utf8_decode r3
        end
      end
    end
  end.

Definition u (s : string) : str :=
  utf8_decode (map Ascii.N_of_ascii (String.list_ascii_of_string s)).
Global Arguments u : simpl never.

Definition NL : N := 10.
Definition CR : N := 13.
Definition UNDERSCORE : N := 95.
Definition SLASH : N := 47.

(** [str.isspace] for one code point: the characters [str.strip()]
    removes. *)
Definition isspace (c : N) : bool :=
  ((9 <=? c) && (c <=? 13)) || ((28 <=? c) && (c <=? 32))
  || (c =? 0x85) || (c =? 0xA0) || (c =? 0x1680)
  || ((0x2000 <=? c) && (c <=? 0x200A))
  || (c =? 0x2028) || (c =? 0x2029) || (c =? 0x202F) || (c =? 0x205F)
  || (c =? 0x3000).

(** The line boundaries of [str.splitlines]. *)
Definition is_linebreak (c : N) : bool :=
  (c =? 10) || (c =? 13) || (c =? 11) || (c =? 12)
  || (c =? 28) || (c =? 29) || (c =? 30)
  || (c =? 0x85) || (c =? 0x2028) || (c =? 0x2029).

Fixpoint lstrip_by (p : N → bool) (s : str) : str :=
  match s with
  | [] => []
  | c :: s' => if p c then lstrip_by p s' else s
  end.

Definition rstrip_by (p : N → bool) (s : str) : str :=
  rev (lstrip_by p (rev s)).

Definition strip_by (p : N → bool) (s : str) : str :=
  rstrip_by p (lstrip_by p s).

(** [s.strip()] *)
Definition strip (s : str) : str := strip_by isspace s.

(** [s.strip(chars)] *)
Definition strip_chars (chars : str) (s : str) : str :=
  strip_by (λ c, bool_decide (c ∈ chars)) s.

(** [s.splitlines()]: a line ends at a boundary, [\r\n] counts as one
    boundary, and a final boundary opens no further line. *)
Fixpoint splitlines (s : str) : list str :=
  match s with
  | [] => []
  | c :: s' =>
    if is_linebreak c then
      [] :: match s' with
            | c' :: s'' =>
              if (c =? CR) && (c' =? NL) then splitlines s'' else splitlines s'
            | [] => []
            end
    else
      match splitlines s' with
      | [] => [[c]]
      | l :: ls => (c :: l) :: ls
      end
  end.

(** [sep.join(parts)] *)
Fixpoint join (sep : str) (parts : list str) : str :=
  match parts with
  | [] => []
  | [p] => p
  | p :: ps => p ++ sep ++ join sep ps
  end.

(** Text mode reading ([newline=None]): [\r\n] and a lone [\r] arrive as
    [\n]. *)
Fixpoint universal_newlines (s : str) : str :=
  match s with
  | [] => []
  | c :: s' =>
    if c =? CR then
      NL :: match s' with
            | c' :: s'' =>
              if c' =? NL then universal_newlines s'' else universal_newlines s'
            | [] => []
            end
    else c :: universal_newlines s'
  end.

(** [re.sub(r"[C]+", repl, s)] for a character class [C]: scanning from
    the left, every maximal run of characters of the class is replaced
    by one [repl].  [in_run] tells that the previous character belonged
    to the run being replaced. *)
Fixpoint re_sub_from (cls : N → bool) (repl : str) (in_run : bool) (s : str) : str :=
  match s with
  | [] => []
  | c :: s' =>
    if cls c
    then (if in_run then [] else repl) ++ re_sub_from cls repl true s'
    else c :: re_sub_from cls repl false s'
  end.

Definition re_sub_plus (cls : N → bool) (repl : str) (s : str) : str :=
  re_sub_from cls repl false s.

(** The class [[a-z0-9]]. *)
Definition in_az09 (c : N) : bool :=
  ((97 <=? c) && (c <=? 122)) || ((48 <=? c) && (c <=? 57)).

Definition not_az09 (c : N) : bool := negb (in_az09 c).
Definition is_underscore (c : N) : bool := c =? UNDERSCORE.

(** Code-point order on text, as [str.__le__]. *)
Fixpoint str_leb (a b : str) : bool :=
  match a, b with
  | [], _ => true
  | _ :: _, [] => false
  | x :: a', y :: b' =>
    if x <? y then true else if y <? x then false else str_leb a' b'
  end.

(** [list.sort(key=key)] and [sorted]: the sort is stable, so its result
    is the one of insertion from the right, an element going in front of
    the elements whose key is not smaller. *)
Fixpoint insert_by (key : str → str) (x : str) (l : list str) : list str :=
  match l with
  | [] => [x]
  | y :: l' => if str_leb (key x) (key y) then x :: l else y :: insert_by key x l'
  end.

Definition sort_by (key : str → str) (l : list str) : list str :=
  foldr (insert_by key) [] l.

(** ** Node store *)

Record Node := mkNode { type : list N; parent : list N; notes : list N }.

(** [read_node], applied to the text [path.read_text] returns. *)
Definition read_node (content : str) : Node :=
  let text := splitlines content in
  let t := match text !! 0%nat with Some l => strip l | None => u "Node" end in
  let parent := match text !! 1%nat with Some l => strip l | None => u "-" end in
  let notes := if bool_decide (2 < length text)%nat
               then join [NL] (drop 2 text) else [] in
  mkNode t parent notes.

(** The data directory on disk: [None] while it does not exist, else
    the finite map from the names of the files in it to their text. *)
Definition filesystem : Type := option (gmap (list N) (list N)).

(** [str(data_dir / file)] for a resolved [data_dir], which ends in a
    slash only when it is a root. *)
Definition path_str (data_dir file : str) : str :=
  match last data_dir with
  | Some c => if c =? SLASH then data_dir ++ file else data_dir ++ [SLASH] ++ file
  | None => file
  end.

Definition path_exists (fs : filesystem) (file : str) : bool :=
  match fs with
  | Some d => bool_decide (is_Some (d !! file))
  | None => false
  end.

(** [path.read_text(encoding="utf-8")] *)
Definition read_text (fs : filesystem) (file : str) : str :=
  universal_newlines (default [] (fs ≫= (.!! file))).

(** A surrogate, U+D800 to U+DFFF, has no UTF-8 encoding.  A [str]
    holds one where a byte of a command line argument did not decode;
    text decoded from a file holds none. *)
Definition is_surrogate (c : N) : bool := (0xD800 <=? c) && (c <=? 0xDFFF).

Definition encodable (s : str) : bool :=
  forallb (λ c, negb (is_surrogate c)) s.

(** An exception that no handler of the program catches. *)
Inductive exception :=
  | UnicodeEncodeError
  | CalledProcessError (returncode : Z).

(** [path.write_text(text, encoding="utf-8")] in an existing directory.
    The file is opened for writing, which creates it or empties it;
    then the text is encoded as a whole and written.  Text with a
    surrogate raises [UnicodeEncodeError] before a byte is written and
    the file stays empty. *)
Definition write_text (fs : filesystem) (file text : str)
  : filesystem * option exception :=
  if encodable text
  then ((λ d, <[file := text]> d) <$> fs, None)
  else ((λ d, <[file := []]> d) <$> fs, Some UnicodeEncodeError).

(** [data_dir.mkdir(parents=True, exist_ok=True)] *)
Definition mkdir (fs : filesystem) : filesystem :=
  match fs with
  | Some d => Some d
  | None => Some ∅
  end.

(** [data_dir.glob("*.txt")] keeps the names that end in [.txt]. *)
Definition glob_txt (file : str) : bool :=
  bool_decide (drop (length file - 4) file = u ".txt").

(** [name.rfind(c)] *)
Fixpoint rfind (c : N) (s : str) : option nat :=
  match s with
  | [] => None
  | x :: s' =>
    match rfind c s' with
    | Some i => Some (S i)
    | None => if x =? c then Some 0%nat else None
    end
  end.

(** [path.stem]: the name up to its last dot, unless that dot is the
    first or the last character. *)
Definition stem (file : str) : str :=
  match rfind 46 file with
  | Some i =>
    if bool_decide (0 < i)%nat && bool_decide (i < length file - 1)%nat
    then take i file else file
  | None => file
  end.

(** [iter_nodes]: the matching files in sorted order. *)
Definition iter_nodes (d : gmap (list N) (list N)) : list str :=
  sort_by id (filter (λ f, glob_txt f = true) (map_to_list d).*1).

(** Python dictionaries keep insertion order, which [cmd_tree] observes
    when it collects the roots: [nodes] is an association list. *)
Fixpoint dict_set (d : list (list N * Node)) (k : str) (v : Node)
  : list (list N * Node) :=
  match d with
  | [] => [(k, v)]
  | (k', v') :: d' =>
    if decide (k = k') then (k, v) :: d' else (k', v') :: dict_set d' k v
  end.

Fixpoint dict_get (d : list (list N * Node)) (k : str) : option Node :=
  match d with
  | [] => None
  | (k', v) :: d' => if decide (k = k') then Some v else dict_get d' k
  end.

(** [children]: keyed by a parent reference or by [None]. *)
Abbreviation Children := (gmap (option (list N)) (list (list N))).

(** [children.get(key, [])] read as a value. *)
Definition kids_of (children : Children) (key : str) : list str :=
  default [] (children !! Some key).

(** ** Tree renderer *)

(** Lines 109-111 of [display]: [kids] is the list object stored under
    [/name] when there is one, and [kids += ...] extends that object in
    place, so the entry of [children] grows with it; without such an
    entry [kids] is a fresh list and [children] is left as it is. *)
Definition lookup_kids (children : Children) (name : str)
  : Children * list str :=
  match children !! Some (SLASH :: name) with
  | Some l =>
    let kids := l ++ kids_of children name in
    (<[Some (SLASH :: name) := kids]> children, kids)
  | None => (children, [] ++ kids_of children name)
  end.

(** Lines 113-118: the loop that drops the names already seen. *)
Fixpoint dedup_loop (seen : gset (list N)) (ordered : list str) (kids : list str)
  : list str :=
  match kids with
  | [] => ordered
  | k :: ks =>
    if decide (k ∈ seen) then dedup_loop seen ordered ks
    else dedup_loop ({[k]} ∪ seen) (ordered ++ [k]) ks
  end.

Definition display_label (nodes : list (list N * Node)) (name : str) : str :=
  match dict_get nodes name with
  | Some n => name ++ u " [" ++ type n ++ u "]"
  | None => name
  end.

(** Lines 119-126: the loop over [enumerate(ordered)], from index [i],
    with [len] for [len(ordered)].  [disp] is the recursive call.  The
    test after the call has an empty body and is left out. *)
Fixpoint display_children
    (disp : str → str → Children → option (Children * list str))
    (prefix : str) (len i : nat) (ordered : list str) (children : Children)
  : option (Children * list str) :=
  match ordered with
  | [] => Some (children, [])
  | child :: rest =>
    let last := bool_decide (i = len - 1)%nat in
    let branch := if last then u "└─ " else u "├─ " in
    let child_prefix := if last then u "   " else u "│  " in
    '(children, out1) ← disp child (prefix ++ branch) children;
    '(children, out2) ← display_children disp prefix len (S i) rest children;
    Some (children, out1 ++ out2)
  end.

(** [display]: the printed lines in order, and [children] as the call
    leaves it.  The recursion of the source has no bound; [fuel] bounds
    its depth here and [None] tells that the bound was reached. *)
Fixpoint display (fuel : nat) (nodes : list (list N * Node))
    (name prefix : str) (children : Children)
  : option (Children * list str) :=
  match fuel with
  | O => None
  | S fuel =>
    let line := prefix ++ display_label nodes name in
    let '(children, kids) := lookup_kids children name in
    let ordered := dedup_loop ∅ [] kids in
    '(children, out) ← display_children (display fuel nodes) prefix
                         (length ordered) 0 ordered children;
    Some (children, line :: out)
  end.

(** The loop over the roots: each subtree is followed by an empty line. *)
Fixpoint display_roots
    (disp : str → str → Children → option (Children * list str))
    (roots : list str) (children : Children)
  : option (Children * list str) :=
  match roots with
  | [] => Some (children, [])
  | r :: rest =>
    '(children, out1) ← disp r [] children;
    '(children, out2) ← display_roots disp rest children;
    Some (children, out1 ++ [[]] ++ out2)
  end.

Definition is_root (n : Node) : bool :=
  bool_decide (parent n = []) || bool_decide (parent n = u "-").

(** ** Commands *)

(** What a command leaves: the data directory, the arguments of its
    [print] calls in order, the exit status, and the exception that
    ended it, if any.  The value a command returns is the exit status
    ([main] returns it to [SystemExit]); an exception that escapes ends
    the interpreter with status 1. *)
Record result := mkOutcome {
  res_fs : filesystem;
  res_out : list (list N);
  res_code : Z;
  res_exc : option exception
}.

(** A command that returns [code]. *)
Abbreviation mkResult fs out code := (mkOutcome fs out code None).

(** A command that an exception leaves. *)
Abbreviation mkRaise fs out e := (mkOutcome fs out 1 (Some e)).

(** The arguments of [add]: [-t] defaults to [Node], [-p] to [None],
    [-n] to the empty text. *)
Record add_args := mkAdd {
  add_name : list N;
  add_type : list N;
  add_parent : option (list N);
  add_notes : list N;
  add_force : bool
}.

(** *** init *)

Definition README_TEXT : str :=
  u "World Builder data directory." ++ [NL]
  ++ u "You can store your notes here in plain text files." ++ [NL].

Definition cmd_init (data_dir : str) (fs : filesystem) : result :=
  let fs := mkdir fs in
  let readme := u "README.txt" in
  let written := if negb (path_exists fs readme)
                 then write_text fs readme README_TEXT else (fs, None) in
  match written with
  | (fs, Some e) => mkRaise fs [] e
  | (fs, None) =>
    mkResult fs [u "Initialized data directory at: " ++ data_dir] 0
  end.

Section Commands.

(** [str.lower]: the Unicode lower-casing of the interpreter.  The code
    is embedded over it; the properties that depend on what it does say
    so. *)
Variable lower : list N → list N.

Definition slugify (name : str) : str :=
  let s := strip (lower name) in
  let s := re_sub_plus not_az09 (u "_") s in
  strip_chars (u "_") (re_sub_plus is_underscore (u "_") s).

(** The key of a name as the specification words it: lowercase the
    name, replace every maximal run of characters outside [[a-z0-9]] by
    one underscore, collapse repeated underscores, strip leading and
    trailing underscores. *)
Definition slugify_ref (name : str) : str :=
  let lowered := lower name in
  let replaced := re_sub_plus not_az09 [UNDERSCORE] lowered in
  let collapsed := re_sub_plus is_underscore [UNDERSCORE] replaced in
  strip_by is_underscore collapsed.

(** The file of a node below the data directory. *)
Definition node_path (name : str) : str := slugify name ++ u ".txt".

(** *** add *)

Definition cmd_add (data_dir : str) (args : add_args) (fs : filesystem) : result :=
  let fs := mkdir fs in
  let path := node_path (add_name args) in
  if path_exists fs path && negb (add_force args) then
    mkResult fs [u "Refusing to overwrite existing node: " ++ path_str data_dir path] 1
  else
    let parent := match add_parent args with
                  | Some p => if bool_decide (p = []) then u "-" else p
                  | None => u "-"
                  end in
    let lines := [add_type args; parent]
                 ++ (if bool_decide (add_notes args = []) then [] else [add_notes args]) in
    match write_text fs path (join [NL] lines ++ [NL]) with
    | (fs, Some e) => mkRaise fs [] e
    | (fs, None) =>
      mkResult fs [u "Created node: " ++ path_str data_dir path] 0
    end.

(** *** show *)

Definition cmd_show (data_dir : str) (name : str) (fs : filesystem) : result :=
  let path := node_path name in
  if negb (path_exists fs path) then
    mkResult fs [u "Node not found: " ++ path_str data_dir path] 1
  else
    let n := read_node (read_text fs path) in
    mkResult fs
      [u "Name:   " ++ name;
       u "Type:   " ++ type n;
       u "Parent: " ++ parent n;
       u "Notes:";
       if bool_decide (notes n = []) then u "(none)" else notes n] 0.

(** ** Index builder *)

Definition parent_group (n : Node) : option str :=
  if bool_decide (parent n ≠ []) && bool_decide (parent n ≠ u "-")
  then Some (parent n) else None.

(** The body of the loop of [build_index] for one path. *)
Definition index_step (fs : filesystem)
    (acc : list (list N * Node) * Children) (path : str)
  : list (list N * Node) * Children :=
  let '(nodes, children) := acc in
  let name := stem path in
  let n := read_node (read_text fs path) in
  let nodes := dict_set nodes name n in
  let parent := parent_group n in
  (nodes, <[parent := default [] (children !! parent) ++ [name]]> children).

Definition build_index (d : gmap (list N) (list N))
  : list (list N * Node) * Children :=
  let '(nodes, children) := foldl (index_step (Some d)) ([], ∅) (iter_nodes d) in
  (nodes, sort_by lower <$> children).

(** *** tree *)

Definition tree_roots (nodes : list (list N * Node)) : list str :=
  sort_by lower (filter (λ kn, is_root kn.2 = true) nodes).*1.

(** [cmd_tree]: the printed lines and the exit status, or [None] when
    the recursion of [display] went deeper than [fuel]. *)
Definition cmd_tree (fuel : nat) (data_dir : str) (root : option str)
    (fs : filesystem) : option (list str * Z) :=
  match fs with
  | None => Some ([u "No data directory: " ++ data_dir], 1%Z)
  | Some d =>
    let '(nodes, children) := build_index d in
    let roots := tree_roots nodes in
    match root with
    | Some start =>
      if bool_decide (start = []) then
        '(_, out) ← display_roots (display fuel nodes) roots children;
        Some (out, 0%Z)
      else if bool_decide (dict_get nodes start = None) then
        Some ([u "Root not found: " ++ start], 1%Z)
      else
        '(_, out) ← display fuel nodes start [] children;
        Some (out, 0%Z)
    | None =>
      '(_, out) ← display_roots (display fuel nodes) roots children;
      Some (out, 0%Z)
    end
  end.

End Commands.

(** Lower-casing below U+0100, where [str.lower] maps one code point to
    one code point: used to run the program on examples. *)
Definition lower_latin1 (s : str) : str :=
  map (λ c, if ((65 <=? c) && (c <=? 90))
               || ((0xC0 <=? c) && (c <=? 0xDE) && negb (c =? 0xD7))
            then c + 32 else c) s.

(** ** Shapes used by the properties *)

(** The last two steps of the key derivation, started inside a run of
    underscores or not, and the last three steps. *)
Definition squeeze (b : bool) (s : str) : str :=
  strip_by is_underscore (re_sub_from is_underscore [UNDERSCORE] b s).

Definition normalise (s : str) : str :=
  squeeze false (re_sub_plus not_az09 [UNDERSCORE] s).

Definition slug_char (c : N) : bool := in_az09 c || is_underscore c.

Fixpoint no_double_underscore (s : str) : bool :=
  match s with
  | [] => true
  | c1 :: s' =>
    match s' with
    | c2 :: _ => negb (is_underscore c1 && is_underscore c2)
    | [] => true
    end && no_double_underscore s'
  end.

(** A key in normal form: letters, digits and single underscores, none
    of them at either end. *)
Definition is_slug (s : str) : Prop :=
  Forall (λ c, slug_char c = true) s
  ∧ no_double_underscore s = true
  ∧ head s ≠ Some UNDERSCORE
  ∧ last s ≠ Some UNDERSCORE.

(** A field that fits on one line of a record and that [read_node]
    returns as written. *)
Definition single_line (s : str) : Prop :=
  Forall (λ c, is_linebreak c = false) s ∧ strip s = s.

(** Notes whose only line boundary is the newline. *)
Definition newline_only (s : str) : Prop :=
  Forall (λ c, is_linebreak c = true → c = NL) s.

(** The order of [sort(key=key)]. *)
Definition key_le (key : list N → list N) (a b : str) : Prop :=
  str_leb (key a) (key b) = true.

(** The node stored in a file of the directory. *)
Definition record_node (d : gmap (list N) (list N)) (path : str) : Node :=
  read_node (read_text (Some d) path).

(** The records of the directory have pairwise distinct keys. *)
Definition distinct_keys (d : gmap (list N) (list N)) : Prop :=
  NoDup (stem <$> iter_nodes d).

(** The duplicates of a list removed, each name staying where it
    occurs first. *)
Fixpoint dedup_first (l : list (list N)) : list (list N) :=
  match l with
  | [] => []
  | x :: l' => x :: filter (λ y, y ≠ x) (dedup_first l')
  end.

(** The children of a name in an index: those listed under [/name],
    then those listed under [name], without duplicates. *)
Definition dual_lookup (children : Children) (name : str) : list str :=
  dedup_first (kids_of children (SLASH :: name) ++ kids_of children name).

(** The parent-child relation of an index, and its being free of
    cycles. *)
Definition child_of (children : Children) (p c : str) : Prop :=
  c ∈ kids_of children (SLASH :: p) ++ kids_of children p.

Definition acyclic (children : Children) : Prop :=
  ∀ n, ¬ tc (child_of children) n n.

(** File names hold no slash. *)
Definition valid_names (d : gmap (list N) (list N)) : Prop :=
  ∀ file, is_Some (d !! file) → SLASH ∉ file.

(** Every name listed in an index. *)
Definition listed_names (children : Children) : list str :=
  mjoin (map_to_list children).*2.

(** What the updates of [display] keep of an index: the children of
    every name that does not start with a slash. *)
Definition same_children (index children : Children) : Prop :=
  ∀ n, head n ≠ Some SLASH → dual_lookup children n = dual_lookup index n.



(** Two records that name each other as parent. *)
Definition cycle_dir : gmap (list N) (list N) :=
  <[u "a.txt" := u "Node" ++ [NL] ++ u "b" ++ [NL]]>
    (<[u "b.txt" := u "Node" ++ [NL] ++ u "a" ++ [NL]]> ∅).

(** Two record files with the one stem [.txt]: a leading dot opens no
    suffix, so that [.txt] is its own stem, and it is the stem of
    [.txt.txt] as well. *)
Definition same_stem_dir : gmap (list N) (list N) :=
  <[u ".txt" := u "Town" ++ [NL] ++ u "rohan" ++ [NL]]>
    (<[u ".txt.txt" := u "City" ++ [NL] ++ u "gondor" ++ [NL]]> ∅).

(** The tree art as the specification words it: a child is printed
    after the running prefix and a branch glyph, and its own subtree is
    rendered with the running prefix extended by the continuation (a
    bar and two spaces, or three spaces below the last child). *)
Fixpoint render_children_ref
    (rec : str → str → str → option (list str))
    (running : str) (len i : nat) (ordered : list str) : option (list str) :=
  match ordered with
  | [] => Some []
  | child :: rest =>
    let last := bool_decide (i = len - 1)%nat in
    let branch := if last then u "└─ " else u "├─ " in
    let continuation := if last then u "   " else u "│  " in
    out1 ← rec child (running ++ branch) (running ++ continuation);
    out2 ← render_children_ref rec running len (S i) rest;
    Some (out1 ++ out2)
  end.

Fixpoint render_ref (fuel : nat) (nodes : list (list N * Node))
    (children : Children) (name line_prefix running : str)
  : option (list str) :=
  match fuel with
  | O => None
  | S fuel =>
    let ordered := dual_lookup children name in
    out ← render_children_ref (render_ref fuel nodes children) running
            (length ordered) 0 ordered;
    Some ((line_prefix ++ display_label nodes name) :: out)
  end.

(** A sequence of [add] commands. *)
Definition run_adds (data_dir : str) (adds : list add_args) (fs : filesystem)
  : filesystem :=
  foldl (λ fs args, res_fs (cmd_add lower_latin1 data_dir args fs)) fs adds.

(** A world of depth two: two kingdoms, a city in each. *)
Definition world_fs : filesystem :=
  run_adds (u "/data")
    [mkAdd (u "Middle Earth") (u "World") None [] false;
     mkAdd (u "Rohan") (u "Kingdom") (Some (u "middle_earth")) [] false;
     mkAdd (u "Gondor") (u "Kingdom") (Some (u "middle_earth")) [] false;
     mkAdd (u "Edoras") (u "City") (Some (u "rohan")) [] false;
     mkAdd (u "Minas Tirith") (u "City") (Some (u "gondor")) [] false]
    None.

(** The directory after [init] and [add readme]. *)
Definition readme_fs : filesystem :=
  run_adds (u "/data")
    [mkAdd (u "readme") (u "Node") None [] false]
    (res_fs (cmd_init (u "/data") None)).

Definition world_dir : gmap (list N) (list N) := default ∅ world_fs.

(** ** The remaining commands *)

(** [f"{s:30}"] for a string: [s] padded with blanks on the right up to
    the width, and left as it is when it is longer. *)
Definition ljust (width : nat) (s : str) : str :=
  s ++ replicate (width - length s) 32.

(** The line [cmd_list] prints for a node. *)
Definition list_line (name : str) (n : Node) : str :=
  ljust 30 name ++ u "  [" ++ type n ++ u "]  parent=" ++ parent n.


Section MoreCommands.
Variable lower : list N → list N.

(** *** list *)

(** The body of the loop of [cmd_list] for one path: the lines printed
    so far and [count]. *)
Definition list_step (fs : filesystem) (type_filter : option str)
    (acc : list (list N) * Z) (path : str) : list (list N) * Z :=
  let '(out, count) := acc in
  let n := read_node (read_text fs path) in
  let skip := match type_filter with
              | Some (c :: t) =>
                negb (bool_decide (lower (type n) = lower (c :: t)))
              | _ => false
              end in
  if skip then acc
  else (out ++ [list_line (stem path) n], (count + 1)%Z).

Definition cmd_list (data_dir : str) (type_filter : option str)
    (fs : filesystem) : result :=
  match fs with
  | None => mkResult fs [u "No data directory: " ++ data_dir] 1
  | Some d =>
    let '(out, count) := foldl (list_step fs type_filter) ([], 0%Z) (iter_nodes d) in
    mkResult fs (out ++ if (count =? 0)%Z then [u "(no nodes)"] else []) 0
  end.

(** *** edit *)

(** [subprocess.run([editor, path], check=True)] is the one step of the
    program outside the data model: [run_editor editor path fs] is
    [None] when no executable of that name is found
    ([FileNotFoundError]), else the exit status of the editor and the
    directory it leaves.  With [check=True] an exit status other than 0
    raises [CalledProcessError], which [cmd_edit] does not catch. *)
Variable run_editor : list N → list N → filesystem → option (Z * filesystem).


End MoreCommands.

(** The two records that name each other, beside a root with a
    child. *)
Definition cycle_root_dir : gmap (list N) (list N) :=
  <[u "shire.txt" := u "Region" ++ [NL] ++ u "-" ++ [NL]]>
    (<[u "bree.txt" := u "Town" ++ [NL] ++ u "/shire" ++ [NL]]> cycle_dir).

(** The arguments of [add "Helm's Deep" -t Fortress -p rohan -n ...]. *)
Definition helms_deep : add_args :=
  mkAdd (u "Helm's Deep") (u "Fortress") (Some (u "rohan"))
        (u "The Hornburg." ++ [NL] ++ u "Held against Saruman.") false.

(* ================================================================== *)
(** * Properties *)

(** Closed decidable statements are settled by evaluation. *)
Ltac by_evaluation := refine (bool_decide_unpack _ _); by vm_compute.

(** ** Stripping *)

Lemma lstrip_by_ext p q s :
  (∀ c, p c = q c) → lstrip_by p s = lstrip_by q s.
Proof.
  intros Hpq. induction s as [|c s IH]; simpl; [done|].
  rewrite <- Hpq. by rewrite IH.
Qed.

Lemma strip_by_ext p q s :
  (∀ c, p c = q c) → strip_by p s = strip_by q s.
Proof.
  intros Hpq. unfold strip_by, rstrip_by.
  by rewrite !(lstrip_by_ext p q).
Qed.

Lemma lstrip_by_all p w :
  Forall (λ c, p c = true) w → lstrip_by p w = [].
Proof. induction 1 as [|c w Hc _ IH]; simpl; [done|]. by rewrite Hc. Qed.

Lemma lstrip_by_app_all p w s :
  Forall (λ c, p c = true) w → lstrip_by p (w ++ s) = lstrip_by p s.
Proof. induction 1 as [|c w Hc _ IH]; simpl; [done|]. by rewrite Hc. Qed.

Lemma lstrip_by_app p s w :
  lstrip_by p (s ++ w) =
  if forallb p s then lstrip_by p w else lstrip_by p s ++ w.
Proof.
  induction s as [|c s IH]; simpl; [done|].
  destruct (p c); simpl; [exact IH | done].
Qed.

Lemma lstrip_by_split p s :
  ∃ w, Forall (λ c, p c = true) w ∧ s = w ++ lstrip_by p s.
Proof.
  induction s as [|c s (w & Hw & IH)]; simpl.
  - by exists [].
  - destruct (p c) eqn:Hc.
    + exists (c :: w). split; [by constructor|]. simpl. by rewrite <- IH.
    + by exists [].
Qed.

Lemma lstrip_by_head p s c : head (lstrip_by p s) = Some c → p c = false.
Proof.
  induction s as [|x s IH]; simpl; [done|].
  destruct (p x) eqn:Hx; [exact IH|]. simpl. congruence.
Qed.

Lemma lstrip_by_id p s :
  (∀ c, head s = Some c → p c = false) → lstrip_by p s = s.
Proof. destruct s as [|c s]; simpl; [done|]. intros H. by rewrite (H c). Qed.

Lemma lstrip_by_suffix p s : lstrip_by p s `suffix_of` s.
Proof.
  destruct (lstrip_by_split p s) as (w & _ & Hw). by exists w.
Qed.

Lemma rstrip_by_snoc p s c :
  rstrip_by p (s ++ [c]) = if p c then rstrip_by p s else s ++ [c].
Proof.
  unfold rstrip_by. rewrite rev_app_distr. simpl.
  destruct (p c); [done|]. simpl. by rewrite rev_involutive.
Qed.

Lemma rstrip_by_app_all p s w :
  Forall (λ c, p c = true) w → rstrip_by p (s ++ w) = rstrip_by p s.
Proof.
  intros Hw. unfold rstrip_by. rewrite rev_app_distr.
  rewrite lstrip_by_app_all; [done|]. by apply Forall_rev.
Qed.

Lemma rstrip_by_split p s :
  ∃ w, Forall (λ c, p c = true) w ∧ s = rstrip_by p s ++ w.
Proof.
  destruct (lstrip_by_split p (rev s)) as (w & Hw & E).
  exists (rev w). split; [by apply Forall_rev|].
  unfold rstrip_by. rewrite <- rev_app_distr, <- E. by rewrite rev_involutive.
Qed.

Lemma rstrip_by_prefix p s : rstrip_by p s `prefix_of` s.
Proof.
  destruct (rstrip_by_split p s) as (w & _ & Hw). by exists w.
Qed.

Lemma rstrip_by_last p s c : last (rstrip_by p s) = Some c → p c = false.
Proof.
  induction s as [|x s IH] using rev_ind; [done|].
  rewrite rstrip_by_snoc. destruct (p x) eqn:Hx; [exact IH|].
  rewrite last_snoc. congruence.
Qed.

Lemma rstrip_by_id p s :
  (∀ c, last s = Some c → p c = false) → rstrip_by p s = s.
Proof.
  destruct s as [|x s _] using rev_ind; [done|].
  intros H. rewrite rstrip_by_snoc, (H x); [done|]. by rewrite last_snoc.
Qed.

Lemma strip_by_app_all_l p w s :
  Forall (λ c, p c = true) w → strip_by p (w ++ s) = strip_by p s.
Proof. intros Hw. unfold strip_by. by rewrite lstrip_by_app_all. Qed.

Lemma strip_by_app_all_r p s w :
  Forall (λ c, p c = true) w → strip_by p (s ++ w) = strip_by p s.
Proof.
  intros Hw. unfold strip_by. rewrite lstrip_by_app.
  destruct (forallb p s) eqn:Hs.
  - rewrite (lstrip_by_all p w Hw).
    rewrite (lstrip_by_all p s); [done|].
    apply Forall_forall. intros c Hc.
    rewrite forallb_forall in Hs. apply Hs. by apply list_elem_of_In.
  - by apply rstrip_by_app_all.
Qed.

Lemma strip_by_split p s :
  ∃ w1 w2, Forall (λ c, p c = true) w1 ∧ Forall (λ c, p c = true) w2
           ∧ s = w1 ++ strip_by p s ++ w2.
Proof.
  destruct (lstrip_by_split p s) as (w1 & H1 & E1).
  destruct (rstrip_by_split p (lstrip_by p s)) as (w2 & H2 & E2).
  exists w1, w2. split_and!; [done..|].
  unfold strip_by. by rewrite <- E2.
Qed.

(** ** Replacing runs *)

Section ReSub.
Variable cls : N → bool.
Variable repl : list N.

Lemma re_sub_from_all_true w :
  Forall (λ c, cls c = true) w → re_sub_from cls repl true w = [].
Proof. induction 1 as [|c w Hc _ IH]; simpl; [done|]. by rewrite Hc, IH. Qed.

Lemma re_sub_from_all b w :
  Forall (λ c, cls c = true) w →
  ∃ e, (e = [] ∨ e = repl) ∧ re_sub_from cls repl b w = e.
Proof.
  intros Hw. destruct Hw as [|c w Hc Hw].
  - exists []. auto.
  - simpl. rewrite Hc, (re_sub_from_all_true w Hw), app_nil_r.
    destruct b; eauto.
Qed.

(** The run state only matters for a leading run. *)
Lemma re_sub_from_flag s :
  ∃ e, (e = [] ∨ e = repl)
       ∧ re_sub_from cls repl false s = e ++ re_sub_from cls repl true s.
Proof.
  destruct s as [|c s]; simpl.
  - exists []. auto.
  - destruct (cls c); [exists repl | exists []]; auto.
Qed.

Lemma re_sub_from_app_all_l b w s :
  Forall (λ c, cls c = true) w →
  ∃ e, (e = [] ∨ e = repl)
       ∧ re_sub_from cls repl b (w ++ s) = e ++ re_sub_from cls repl true s.
Proof.
  intros Hw. destruct Hw as [|c w Hc Hw]; simpl.
  - destruct b; [exists []; auto | apply re_sub_from_flag].
  - rewrite Hc. exists (if b then [] else repl).
    split; [destruct b; auto|]. f_equal.
    clear Hc. induction Hw as [|x w Hx _ IH]; simpl; [done|]. by rewrite Hx.
Qed.

Lemma re_sub_from_app_all_r b s w :
  Forall (λ c, cls c = true) w →
  ∃ e, (e = [] ∨ e = repl)
       ∧ re_sub_from cls repl b (s ++ w) = re_sub_from cls repl b s ++ e.
Proof.
  intros Hw. revert b. induction s as [|c s IH]; intros b; simpl.
  - apply re_sub_from_all, Hw.
  - destruct (cls c).
    + destruct (IH true) as (e & He & ->). exists e. by rewrite app_assoc.
    + destruct (IH false) as (e & He & ->). by exists e.
Qed.

End ReSub.

Lemma isspace_not_az09 c : isspace c = true → not_az09 c = true.
Proof.
  unfold isspace, not_az09, in_az09. intros H.
  rewrite !orb_true_iff, !andb_true_iff, !N.leb_le, !N.eqb_eq in H.
  rewrite negb_true_iff, orb_false_iff, !andb_false_iff, !N.leb_gt. lia.
Qed.

Lemma in_underscore_eq c : bool_decide (c ∈ u "_") = is_underscore c.
Proof.
  change (u "_") with [UNDERSCORE]. unfold is_underscore.
  destruct (N.eqb_spec c UNDERSCORE) as [->|Hne].
  - apply bool_decide_eq_true. by apply list_elem_of_singleton.
  - apply bool_decide_eq_false. by rewrite list_elem_of_singleton.
Qed.

Lemma strip_chars_underscore s : strip_chars (u "_") s = strip_by is_underscore s.
Proof. apply strip_by_ext, in_underscore_eq. Qed.

(** ** The key in normal form *)

(** Collapsing and stripping underscores does not see underscores added
    at either end. *)
Lemma underscore_pad e :
  e = [] ∨ e = [UNDERSCORE] → Forall (λ c, is_underscore c = true) e.
Proof. intros [->| ->]; repeat constructor. Qed.

Lemma squeeze_pad_l b b' e s :
  e = [] ∨ e = [UNDERSCORE] → squeeze b (e ++ s) = squeeze b' s.
Proof.
  intros He. unfold squeeze.
  destruct (re_sub_from_app_all_l is_underscore [UNDERSCORE] b e s
              (underscore_pad e He)) as (e1 & He1 & ->).
  rewrite strip_by_app_all_l by by apply underscore_pad.
  destruct b'; [done|].
  destruct (re_sub_from_flag is_underscore [UNDERSCORE] s) as (e2 & He2 & ->).
  by rewrite strip_by_app_all_l by by apply underscore_pad.
Qed.

Lemma squeeze_pad_r b e s :
  e = [] ∨ e = [UNDERSCORE] → squeeze b (s ++ e) = squeeze b s.
Proof.
  intros He. unfold squeeze.
  destruct (re_sub_from_app_all_r is_underscore [UNDERSCORE] b s e
              (underscore_pad e He)) as (e1 & He1 & ->).
  by rewrite strip_by_app_all_r by by apply underscore_pad.
Qed.

Lemma normalise_app_l w s :
  Forall (λ c, not_az09 c = true) w → normalise (w ++ s) = normalise s.
Proof.
  intros Hw. unfold normalise, re_sub_plus.
  destruct (re_sub_from_app_all_l not_az09 [UNDERSCORE] false w s Hw)
    as (e1 & He1 & ->).
  destruct (re_sub_from_flag not_az09 [UNDERSCORE] s) as (e2 & He2 & ->).
  by rewrite (squeeze_pad_l false false e1), (squeeze_pad_l false false e2).
Qed.

Lemma normalise_app_r s w :
  Forall (λ c, not_az09 c = true) w → normalise (s ++ w) = normalise s.
Proof.
  intros Hw. unfold normalise, re_sub_plus.
  destruct (re_sub_from_app_all_r not_az09 [UNDERSCORE] false s w Hw)
    as (e1 & He1 & ->).
  by apply squeeze_pad_r.
Qed.

Lemma normalise_strip s : normalise (strip s) = normalise s.
Proof.
  destruct (strip_by_split isspace s) as (w1 & w2 & H1 & H2 & E).
  rewrite E at 2. fold (strip s).
  rewrite normalise_app_l, normalise_app_r; [done|..];
    (eapply Forall_impl; [eassumption|]); apply isspace_not_az09.
Qed.

Lemma no_double_underscore_app a b :
  no_double_underscore (a ++ b) = true →
  no_double_underscore a = true ∧ no_double_underscore b = true.
Proof.
  induction a as [|x a IH]; simpl; [done|].
  intros [H1 H2]%andb_true_iff. destruct (IH H2) as [Ha Hb].
  split; [|done]. rewrite Ha, andb_true_r.
  destruct a as [|y a]; [done|]. exact H1.
Qed.

Lemma az09_not_underscore c : in_az09 c = true → is_underscore c = false.
Proof.
  unfold is_underscore, in_az09, UNDERSCORE.
  rewrite orb_true_iff, !andb_true_iff, !N.leb_le, N.eqb_neq. lia.
Qed.

Lemma re_sub_not_az09_shape b s :
  Forall (λ c, slug_char c = true) (re_sub_from not_az09 [UNDERSCORE] b s)
  ∧ no_double_underscore (re_sub_from not_az09 [UNDERSCORE] b s) = true
  ∧ (b = true → head (re_sub_from not_az09 [UNDERSCORE] b s) ≠ Some UNDERSCORE).
Proof.
  revert b. induction s as [|c s IH]; intros b; simpl.
  - split_and!; [constructor | done | done].
  - destruct (not_az09 c) eqn:Hn.
    + destruct (IH true) as (HF & HD & HH). destruct b; simpl.
      * split_and!; [done | done | by intros _; apply HH].
      * split_and!; [by constructor | | done].
        rewrite HD, andb_true_r.
        destruct (re_sub_from not_az09 [UNDERSCORE] true s) as [|y r] eqn:E;
          [done|].
        destruct (N.eqb_spec y UNDERSCORE) as [->|Hne]; [by destruct HH|].
        unfold is_underscore. apply N.eqb_neq in Hne. by rewrite Hne.
    + apply negb_false_iff in Hn.
      destruct (IH false) as (HF & HD & _). split_and!.
      * constructor; [|done]. unfold slug_char. by rewrite Hn.
      * simpl. rewrite HD, andb_true_r.
        destruct (re_sub_from not_az09 [UNDERSCORE] false s); [done|].
        by rewrite (az09_not_underscore c Hn).
      * intros _ [= ->]. done.
Qed.

(** On a text of slug characters without doubled underscore both
    substitutions change nothing. *)
Lemma re_sub_not_az09_id b s :
  Forall (λ c, slug_char c = true) s →
  no_double_underscore s = true →
  (b = true → head s ≠ Some UNDERSCORE) →
  re_sub_from not_az09 [UNDERSCORE] b s = s.
Proof.
  intros HF. revert b. induction HF as [|c s Hc HF IH]; intros b HD Hb; [done|].
  simpl in HD. apply andb_true_iff in HD as [H1 H2]. simpl.
  unfold slug_char in Hc. unfold not_az09 at 1.
  destruct (in_az09 c) eqn:Ha; simpl.
  - f_equal. apply IH; [done|]. done.
  - apply N.eqb_eq in Hc as ->.
    destruct b; [by destruct Hb|]. simpl. f_equal.
    apply IH; [done|]. intros _. destruct s as [|y s]; [done|].
    simpl. intros [= ->]. done.
Qed.

Lemma re_sub_underscore_id b s :
  no_double_underscore s = true →
  (b = true → head s ≠ Some UNDERSCORE) →
  re_sub_from is_underscore [UNDERSCORE] b s = s.
Proof.
  revert b. induction s as [|c s IH]; intros b HD Hb; [done|].
  simpl in HD. apply andb_true_iff in HD as [H1 H2]. simpl.
  destruct (is_underscore c) eqn:Hc.
  - apply N.eqb_eq in Hc as ->.
    destruct b; [by destruct Hb|]. simpl. f_equal.
    apply IH; [done|]. intros _. destruct s as [|y s]; [done|].
    simpl. intros [= ->]. done.
  - f_equal. by apply IH.
Qed.

Lemma normalise_is_slug s : is_slug (normalise s).
Proof.
  unfold normalise, squeeze, re_sub_plus.
  destruct (re_sub_not_az09_shape false s) as (HF & HD & _).
  set (r := re_sub_from not_az09 [UNDERSCORE] false s) in *.
  rewrite re_sub_underscore_id by done.
  unfold strip_by.
  destruct (rstrip_by_prefix is_underscore (lstrip_by is_underscore r)) as [w2 E2].
  destruct (lstrip_by_suffix is_underscore r) as [w1 E1].
  set (t := rstrip_by is_underscore (lstrip_by is_underscore r)) in *.
  rewrite E2 in E1. rewrite E1 in HF, HD.
  apply Forall_app in HF as [_ [HF _]%Forall_app].
  apply no_double_underscore_app in HD as [_ [HD _]%no_double_underscore_app].
  split_and!; [done..| |].
  - intros Hh.
    assert (head (lstrip_by is_underscore r) = Some UNDERSCORE) as Hh'.
    { rewrite E2. destruct t; [done|]. exact Hh. }
    by apply lstrip_by_head in Hh'.
  - intros Hl. by apply rstrip_by_last in Hl.
Qed.

Lemma slug_ends_not_space s c :
  is_slug s → head s = Some c ∨ last s = Some c → isspace c = false.
Proof.
  intros (HF & _ & Hh & Hl) Hc.
  assert (slug_char c = true ∧ c ≠ UNDERSCORE) as [Hs Hne].
  { rewrite Forall_forall in HF. destruct Hc as [Hc|Hc].
    - split; [|congruence]. apply HF. destruct s; [done|].
      injection Hc as ->. left.
    - split; [|congruence]. apply HF.
      apply last_Some in Hc as [l' ->]. apply elem_of_app. right. left. }
  destruct (isspace c) eqn:Hsp; [|done].
  apply isspace_not_az09 in Hsp. unfold not_az09 in Hsp.
  unfold slug_char in Hs. apply negb_true_iff in Hsp. rewrite Hsp in Hs.
  simpl in Hs. by apply N.eqb_eq in Hs.
Qed.

Lemma normalise_slug s : is_slug s → normalise s = s.
Proof.
  intros (HF & HD & Hh & Hl). unfold normalise, squeeze, re_sub_plus.
  rewrite re_sub_not_az09_id, re_sub_underscore_id by done.
  unfold strip_by. rewrite lstrip_by_id.
  - apply rstrip_by_id. intros c Hc. apply N.eqb_neq. congruence.
  - intros c Hc. apply N.eqb_neq. congruence.
Qed.

Lemma strip_slug s : is_slug s → strip s = s.
Proof.
  intros Hs. unfold strip, strip_by. rewrite lstrip_by_id.
  - apply rstrip_by_id. intros c Hc. apply (slug_ends_not_space s); auto.
  - intros c Hc. apply (slug_ends_not_space s); auto.
Qed.

(** ** Key derivation *)

Section Slugify.
Variable lower : list N → list N.

Lemma slugify_normalise name :
  slugify lower name = normalise (strip (lower name)).
Proof. unfold slugify. by rewrite strip_chars_underscore. Qed.

Lemma slugify_slugify_ref name : slugify lower name = slugify_ref lower name.
Proof. rewrite slugify_normalise. apply normalise_strip. Qed.

Lemma slugify_no_az09 name :
  Forall (λ c, in_az09 c = false) (lower name) → slugify lower name = [].
Proof.
  intros Hno. rewrite slugify_slugify_ref. unfold slugify_ref.
  change (normalise (lower name) = []).
  rewrite <- (app_nil_l (lower name)). rewrite normalise_app_r; [done|].
  eapply Forall_impl; [exact Hno|]. intros c Hc. unfold not_az09. by rewrite Hc.
Qed.

(** C5: for every name, [slugify] yields what the reference definition
    yields: the lowercased name with each maximal run of characters
    outside [[a-z0-9]] replaced by one underscore, repeated underscores
    collapsed and the underscores at both ends stripped.  In particular
    a name whose lowercased form has no character in [[a-z0-9]] gets
    the empty key. *)
Theorem slugify_reference :
  (∀ name, slugify lower name = slugify_ref lower name)
  ∧ (∀ name, Forall (λ c, in_az09 c = false) (lower name) →
             slugify lower name = []).
Proof. split; [apply slugify_slugify_ref | apply slugify_no_az09]. Qed.

Lemma slugify_is_slug name : is_slug (slugify lower name).
Proof. rewrite slugify_normalise. apply normalise_is_slug. Qed.

(** [str.lower] leaves lowercase letters, digits and underscores as they
    are. *)
Hypothesis lower_slug_chars :
  ∀ s, Forall (λ c, slug_char c = true) s → lower s = s.

Lemma slugify_slug s : is_slug s → slugify lower s = s.
Proof.
  intros Hs. rewrite slugify_normalise.
  rewrite lower_slug_chars by apply Hs.
  rewrite strip_slug by done. by apply normalise_slug.
Qed.

(** C6: [slugify] is idempotent. *)
Theorem slugify_idempotent name :
  slugify lower (slugify lower name) = slugify lower name.
Proof. apply slugify_slug, slugify_is_slug. Qed.

End Slugify.

(** ** Node store *)

Lemma universal_newlines_id s :
  Forall (λ c, c ≠ CR) s → universal_newlines s = s.
Proof.
  induction 1 as [|c s Hc _ IH]; simpl; [done|].
  apply N.eqb_neq in Hc. by rewrite Hc, IH.
Qed.

Lemma splitlines_line l rest :
  Forall (λ c, is_linebreak c = false) l →
  splitlines (l ++ NL :: rest) = l :: splitlines rest.
Proof.
  induction 1 as [|c l Hc _ IH]; simpl.
  - by destruct rest.
  - by rewrite Hc, IH.
Qed.

Lemma splitlines_notes n :
  newline_only n →
  ∃ l ls, splitlines (n ++ [NL]) = l :: ls ∧ join [NL] (l :: ls) = n.
Proof.
  induction 1 as [|c n Hc _ (l & ls & E & J)].
  - by exists [], [].
  - change ((c :: n) ++ [NL]) with (c :: (n ++ [NL])).
    destruct (is_linebreak c) eqn:Hb.
    + rewrite (Hc eq_refl). exists [], (l :: ls). split.
      * simpl. destruct (n ++ [NL]) eqn:E'; [by destruct n|]. by rewrite <- E.
      * change (join [NL] ([] :: l :: ls)) with (NL :: join [NL] (l :: ls)).
        by rewrite J.
    + exists (c :: l), ls. split.
      * simpl. by rewrite Hb, E.
      * rewrite <- J. by destruct ls.
Qed.

Lemma linebreak_free_no_cr s :
  Forall (λ c, is_linebreak c = false) s → Forall (λ c, c ≠ CR) s.
Proof. intros H. eapply Forall_impl; [exact H|]. by intros c Hc ->. Qed.

Lemma newline_only_no_cr s : newline_only s → Forall (λ c, c ≠ CR) s.
Proof.
  intros H. eapply Forall_impl; [exact H|].
  intros c Hc ->. by specialize (Hc eq_refl).
Qed.

(** What [read_node] makes of the text [cmd_add] writes. *)
Lemma read_node_written t p n :
  single_line t → single_line p → newline_only n →
  read_node (universal_newlines
    (join [NL] ([t; p] ++ (if bool_decide (n = []) then [] else [n])) ++ [NL]))
  = mkNode t p n.
Proof.
  intros [Ht St] [Hp Sp] Hn. unfold read_node.
  case_bool_decide as En.
  - subst n.
    replace (join [NL] ([t; p] ++ []) ++ [NL]) with (t ++ NL :: p ++ [NL])
      by (simpl; by repeat (rewrite <- app_assoc; simpl)).
    rewrite universal_newlines_id.
    2:{ repeat first [ apply Forall_app; split | apply Forall_cons; split
                     | apply Forall_nil | by apply linebreak_free_no_cr
                     | by apply newline_only_no_cr | done ]. }
    rewrite !splitlines_line by done. simpl. by rewrite St, Sp.
  - replace (join [NL] ([t; p] ++ [n]) ++ [NL])
      with (t ++ NL :: p ++ NL :: n ++ [NL])
      by (simpl; by repeat (rewrite <- app_assoc; simpl)).
    rewrite universal_newlines_id.
    2:{ repeat first [ apply Forall_app; split | apply Forall_cons; split
                     | apply Forall_nil | by apply linebreak_free_no_cr
                     | by apply newline_only_no_cr | done ]. }
    rewrite !splitlines_line by done.
    destruct (splitlines_notes n Hn) as (l & ls & -> & J).
    change ((t :: p :: l :: ls) !! 0%nat) with (Some t).
    change ((t :: p :: l :: ls) !! 1%nat) with (Some p).
    change (drop 2 (t :: p :: l :: ls)) with (l :: ls).
    cbv beta iota. rewrite St, Sp, J.
    rewrite bool_decide_eq_true_2; [done|]. simpl. lia.
Qed.

(** The text of a record is encoded when its fields are. *)
Lemma encodable_app a b : encodable (a ++ b) = encodable a && encodable b.
Proof. apply forallb_app. Qed.

Lemma encodable_cons c s :
  encodable (c :: s) = negb (is_surrogate c) && encodable s.
Proof. done. Qed.

Lemma encodable_record t p n :
  encodable t = true → encodable p = true → encodable n = true →
  encodable
    (join [NL] ([t; p] ++ (if bool_decide (n = []) then [] else [n])) ++ [NL])
  = true.
Proof.
  intros Ht Hp Hn.
  case_bool_decide; cbn [app join];
    rewrite !encodable_app, !encodable_cons, ?encodable_app, ?encodable_cons,
      ?Ht, ?Hp, ?Hn; reflexivity.
Qed.

Lemma encodable_record_fields t p n :
  encodable
    (join [NL] ([t; p] ++ (if bool_decide (n = []) then [] else [n])) ++ [NL])
  = encodable t && encodable p && encodable n.
Proof.
  case_bool_decide as E; [subst n|]; cbn [app join];
    rewrite !encodable_app, !encodable_cons, ?encodable_app, ?encodable_cons;
    change (negb (is_surrogate NL)) with true;
    change (encodable []) with true.
  - by destruct (encodable t), (encodable p).
  - by destruct (encodable t), (encodable p), (encodable n).
Qed.

Lemma write_text_encodable fs file text :
  encodable text = true →
  write_text fs file text = ((λ d, <[file := text]> d) <$> fs, None).
Proof. intros H. unfold write_text. by rewrite H. Qed.

Lemma mkdir_exists fs file force :
  force = true ∨ path_exists fs file = false →
  path_exists (mkdir fs) file && negb force = false.
Proof.
  intros [->|Hw]; [apply andb_false_r|].
  destruct fs as [d|]; simpl in *; [by rewrite Hw|].
  rewrite bool_decide_eq_false_2; [done|]. rewrite lookup_empty.
  by intros [? ?].
Qed.

Section Store.
Variable lower : list N → list N.

(** C4, as the code has it: a type and a parent that are free of line
    boundaries and of surrounding white space, the parent not empty,
    and notes whose only line boundary is the newline, all three
    without surrogate so that the record can be encoded, are read back
    from the record that [add] wrote exactly as they were given. *)
Theorem add_read_roundtrip data_dir name t p n force fs :
  single_line t → single_line p → p ≠ [] → newline_only n →
  encodable t = true → encodable p = true → encodable n = true →
  force = true ∨ path_exists fs (node_path lower name) = false →
  let r := cmd_add lower data_dir (mkAdd name t (Some p) n force) fs in
  res_code r = 0%Z
  ∧ res_exc r = None
  ∧ read_node (read_text (res_fs r) (node_path lower name)) = mkNode t p n.
Proof.
  intros Ht Hp Hne Hn Et Ep En Hw. unfold cmd_add.
  cbn [add_force add_name add_type add_parent add_notes].
  rewrite (mkdir_exists _ _ _ Hw).
  rewrite (bool_decide_eq_false_2 (p = [])) by done.
  rewrite write_text_encodable by by apply encodable_record.
  cbn [res_code res_exc res_fs]. split_and!; [done..|].
  unfold read_text.
  destruct (mkdir fs) as [d|] eqn:Ed; [|by destruct fs].
  simpl. rewrite lookup_insert_eq. simpl.
  by apply read_node_written.
Qed.

Lemma cmd_add_existing data_dir args d text :
  d !! node_path lower (add_name args) = Some text →
  add_force args = false →
  cmd_add lower data_dir args (Some d)
  = mkResult (Some d)
      [u "Refusing to overwrite existing node: "
         ++ path_str data_dir (node_path lower (add_name args))] 1.
Proof.
  intros Hd Hf. unfold cmd_add. simpl. rewrite Hf, andb_true_r.
  rewrite bool_decide_eq_true_2; [done|]. by rewrite Hd.
Qed.

(** C7: [add] for a name whose file exists, without the force flag,
    exits with status 1, prints the refusal and leaves the data
    directory, hence the record, as it was. *)
Theorem add_refuses_existing data_dir args d text :
  d !! node_path lower (add_name args) = Some text →
  add_force args = false →
  let r := cmd_add lower data_dir args (Some d) in
  res_code r = 1%Z
  ∧ res_out r = [u "Refusing to overwrite existing node: "
                   ++ path_str data_dir (node_path lower (add_name args))]
  ∧ res_fs r = Some d
  ∧ res_fs r ≫= (.!! node_path lower (add_name args)) = Some text.
Proof.
  intros Hd Hf r. subst r. rewrite (cmd_add_existing _ _ _ _ Hd Hf).
  by split_and!.
Qed.

Lemma cmd_add_created data_dir args fs :
  res_code (cmd_add lower data_dir args fs) = 0%Z →
  ∃ d text, res_fs (cmd_add lower data_dir args fs) = Some d
            ∧ d !! node_path lower (add_name args) = Some text.
Proof.
  unfold cmd_add.
  destruct (path_exists (mkdir fs) (node_path lower (add_name args))
            && negb (add_force args)); [done|].
  unfold write_text. destruct (encodable _); [|done].
  intros _. cbn [res_fs].
  destruct (mkdir fs) as [d|] eqn:Ed; [|by destruct fs].
  eexists _, _. split; [reflexivity|]. apply lookup_insert_eq.
Qed.

(** The scenario of the specification: a second [add] of the same name
    without the force flag is refused and the first record stays. *)
Lemma add_twice data_dir args args' fs :
  add_name args' = add_name args → add_force args' = false →
  res_code (cmd_add lower data_dir args fs) = 0%Z →
  let fs1 := res_fs (cmd_add lower data_dir args fs) in
  res_code (cmd_add lower data_dir args' fs1) = 1%Z
  ∧ res_fs (cmd_add lower data_dir args' fs1) = fs1.
Proof.
  intros Hname Hforce H1 fs1.
  destruct (cmd_add_created data_dir args fs H1) as (d & text & E & Hd).
  subst fs1. rewrite E. rewrite <- Hname in Hd.
  by rewrite (cmd_add_existing data_dir args' d text Hd Hforce).
Qed.

(** C9: [show] for a name whose file does not exist exits with status
    1 and prints the single line [Node not found: <path>], the path
    being the file derived from the name; no field of a node is
    printed. *)
Theorem show_missing data_dir name fs :
  path_exists fs (node_path lower name) = false →
  cmd_show lower data_dir name fs
  = mkResult fs
      [u "Node not found: " ++ path_str data_dir (node_path lower name)] 1.
Proof. intros He. unfold cmd_show. by rewrite He. Qed.

End Store.

(** ** Sorting *)

Lemma str_leb_total a b : str_leb a b = true ∨ str_leb b a = true.
Proof.
  revert b. induction a as [|x a IH]; intros [|y b]; simpl; auto.
  destruct (N.ltb_spec x y), (N.ltb_spec y x); auto; lia.
Qed.

Lemma str_leb_trans a b c :
  str_leb a b = true → str_leb b c = true → str_leb a c = true.
Proof.
  revert b c. induction a as [|x a IH]; intros [|y b] [|z c]; simpl; try done.
  destruct (N.ltb_spec x y), (N.ltb_spec y x), (N.ltb_spec y z),
    (N.ltb_spec z y), (N.ltb_spec x z), (N.ltb_spec z x);
    try done; try lia.
  apply IH.
Qed.

Section Sort.
Variable key : list N → list N.

Lemma insert_by_Permutation x l : insert_by key x l ≡ₚ x :: l.
Proof.
  induction l as [|y l IH]; simpl; [done|].
  destruct (str_leb (key x) (key y)); [done|].
  rewrite IH. apply Permutation_swap.
Qed.

Lemma sort_by_Permutation l : sort_by key l ≡ₚ l.
Proof.
  induction l as [|x l IH]; simpl; [done|].
  rewrite insert_by_Permutation. by rewrite IH.
Qed.

Lemma elem_of_sort_by x l : x ∈ sort_by key l ↔ x ∈ l.
Proof. by rewrite sort_by_Permutation. Qed.

Lemma insert_by_sorted x l :
  StronglySorted (key_le key) l → StronglySorted (key_le key) (insert_by key x l).
Proof.
  induction 1 as [|y l Hl IH Hy]; simpl.
  - repeat constructor.
  - destruct (str_leb (key x) (key y)) eqn:Hxy.
    + constructor; [by constructor|]. constructor; [done|].
      eapply Forall_impl; [exact Hy|]. intros z Hz.
      unfold key_le in *. by eapply str_leb_trans.
    + constructor; [done|]. rewrite insert_by_Permutation.
      constructor; [|done]. unfold key_le.
      destruct (str_leb_total (key x) (key y)); congruence.
Qed.

Lemma sort_by_sorted l : StronglySorted (key_le key) (sort_by key l).
Proof.
  induction l as [|x l IH]; simpl; [constructor|]. by apply insert_by_sorted.
Qed.

(** The sort is stable: names with the same key stay in the order they
    had.  With [sort_by_Permutation] and [sort_by_sorted] this fixes the
    result of a stable sort. *)
Lemma insert_by_stable k x l :
  filter (λ y, key y = k) (insert_by key x l) = filter (λ y, key y = k) (x :: l).
Proof.
  induction l as [|y l IH]; simpl; [done|].
  destruct (str_leb (key x) (key y)) eqn:Hxy; [done|].
  assert (key y ≠ key x) as Hne.
  { intros E. rewrite E in Hxy.
    destruct (str_leb_total (key x) (key x)); congruence. }
  destruct (decide (key y = k)) as [Hy|Hy], (decide (key x = k)) as [Hx|Hx];
    try congruence;
    repeat (rewrite ?filter_cons_True, ?filter_cons_False by done);
    rewrite IH;
    repeat (rewrite ?filter_cons_True, ?filter_cons_False by done); done.
Qed.

Lemma sort_by_stable k l :
  filter (λ y, key y = k) (sort_by key l) = filter (λ y, key y = k) l.
Proof.
  induction l as [|x l IH]; [done|]. simpl. rewrite insert_by_stable.
  destruct (decide (key x = k));
    repeat (rewrite ?filter_cons_True, ?filter_cons_False by done);
    by rewrite IH.
Qed.

End Sort.

(** ** Index builder *)

Lemma dict_set_fresh nodes k v :
  k ∉ nodes.*1 → dict_set nodes k v = nodes ++ [(k, v)].
Proof.
  induction nodes as [|[k0 v0] nodes IH]; simpl; [done|].
  intros Hk. apply not_elem_of_cons in Hk as [Hne Hk].
  rewrite decide_False by done. by rewrite IH.
Qed.

Lemma dict_get_Some nodes k v :
  NoDup nodes.*1 → dict_get nodes k = Some v ↔ (k, v) ∈ nodes.
Proof.
  induction nodes as [|[k0 v0] nodes IH]; simpl.
  - intros _. split; [done|]. by intros ?%elem_of_nil.
  - intros [Hk0 Hnd]%NoDup_cons. rewrite elem_of_cons.
    destruct (decide (k = k0)) as [->|Hne].
    + split; [intros [= ->]; by left|].
      intros [[= ->]|Hin]; [done|]. destruct Hk0.
      apply list_elem_of_fmap. by exists (k0, v).
    + rewrite (IH Hnd). split; [by right|]. intros [[= -> ->]|H]; done.
Qed.

Lemma rfind_app c k s :
  rfind c (k ++ s)
  = match rfind c s with
    | Some i => Some (length k + i)%nat
    | None => rfind c k
    end.
Proof.
  induction k as [|x k IH]; simpl.
  - by destruct (rfind c s).
  - rewrite IH. by destruct (rfind c s).
Qed.

Lemma glob_txt_split file :
  glob_txt file = true → ∃ k, file = k ++ u ".txt".
Proof.
  unfold glob_txt. intros H%bool_decide_eq_true.
  exists (take (length file - 4) file). rewrite <- H. by rewrite take_drop.
Qed.

Lemma stem_txt k : k ≠ [] → stem (k ++ u ".txt") = k.
Proof.
  intros Hk. unfold stem. rewrite rfind_app.
  change (rfind 46 (u ".txt")) with (Some 0%nat). cbv beta iota.
  rewrite Nat.add_0_r, length_app.
  change (length (u ".txt")) with 4%nat.
  rewrite !bool_decide_eq_true_2.
  - by rewrite take_app_length.
  - lia.
  - destruct k; [done|]. simpl. lia.
Qed.

(** Two record files have the same key only if they are [.txt] and
    [.txt.txt]. *)
Lemma distinct_keys_unless (d : gmap (list N) (list N)) :
  ¬ (is_Some (d !! u ".txt") ∧ is_Some (d !! u ".txt.txt")) → distinct_keys d.
Proof.
  intros Hnot. unfold distinct_keys.
  assert (∀ x, x ∈ iter_nodes d → glob_txt x = true ∧ is_Some (d !! x)) as Hin.
  { intros x. unfold iter_nodes.
    rewrite elem_of_sort_by, list_elem_of_filter, list_elem_of_fmap.
    intros [Hg ([k v] & -> & Hkv)]. split; [done|].
    apply elem_of_map_to_list in Hkv. simpl. eauto. }
  assert (∀ kx ky, kx ++ u ".txt" ∈ iter_nodes d → ky ++ u ".txt" ∈ iter_nodes d →
                   kx = [] → ky ≠ [] →
                   stem (kx ++ u ".txt") ≠ stem (ky ++ u ".txt")) as Hmixed.
  { intros kx ky Hx Hy -> Hky. rewrite (stem_txt ky Hky).
    change (stem ([] ++ u ".txt")) with (u ".txt"). intros <-.
    apply Hnot. split; [apply (Hin _ Hx) | apply (Hin _ Hy)]. }
  apply NoDup_fmap_2_strong.
  - intros x y Hx Hy E.
    destruct (glob_txt_split x (proj1 (Hin x Hx))) as [kx ->].
    destruct (glob_txt_split y (proj1 (Hin y Hy))) as [ky ->].
    destruct (decide (kx = [])) as [Ex|Ex], (decide (ky = [])) as [Ey|Ey].
    + by subst.
    + by destruct (Hmixed kx ky Hx Hy Ex Ey).
    + by destruct (Hmixed ky kx Hy Hx Ey Ex).
    + rewrite !stem_txt in E by done. by subst.
  - unfold iter_nodes. rewrite sort_by_Permutation.
    apply NoDup_filter, NoDup_fst_map_to_list.
Qed.

Section Index.
Variable lower : list N → list N.
Variable d : gmap (list N) (list N).

(** The index before the child lists are sorted, for the paths
    processed so far. *)
Lemma index_loop_spec paths :
  NoDup (stem <$> paths) →
  ∃ children : Children,
    foldl (index_step (Some d)) ([], ∅) paths
    = ((λ path, (stem path, record_node d path)) <$> paths, children)
    ∧ ∀ g, default [] (children !! g)
           = stem <$> filter (λ path, parent_group (record_node d path) = g) paths.
Proof.
  induction paths as [|path paths IH] using rev_ind.
  - intros _. exists ∅. split; [done|]. intros g. by rewrite lookup_empty.
  - rewrite fmap_app. intros (Hnd & Hfresh & _)%NoDup_app.
    destruct (IH Hnd) as (children & E & Hch).
    rewrite foldl_snoc, E. unfold index_step at 1.
    fold (record_node d path).
    eexists. split.
    + f_equal. rewrite fmap_app. simpl. apply dict_set_fresh.
      rewrite <- list_fmap_compose. intros Hin. apply (Hfresh _ Hin). simpl. left.
    + intros g. rewrite filter_app, fmap_app.
      destruct (decide (parent_group (record_node d path) = g)) as [<-|Hne].
      * rewrite lookup_insert_eq. simpl. rewrite Hch.
        by rewrite filter_cons_True.
      * rewrite lookup_insert_ne by done. rewrite Hch.
        rewrite filter_cons_False by done. by rewrite app_nil_r.
Qed.

Lemma build_index_spec :
  distinct_keys d →
  let '(nodes, children) := build_index lower d in
  nodes = (λ path, (stem path, record_node d path)) <$> iter_nodes d
  ∧ ∀ g, default [] (children !! g)
         = sort_by lower
             (stem <$> filter (λ path, parent_group (record_node d path) = g)
                              (iter_nodes d)).
Proof.
  intros Hnd. unfold build_index.
  destruct (index_loop_spec (iter_nodes d) Hnd) as (children & -> & Hch).
  split; [done|]. intros g. rewrite lookup_fmap, <- Hch.
  by destruct (children !! g).
Qed.

Lemma NoDup_fmap_eq {A B} (f : A → B) (l : list A) x y :
  NoDup (f <$> l) → x ∈ l → y ∈ l → f x = f y → x = y.
Proof.
  induction l as [|a l IH]; simpl; [by intros _ ?%elem_of_nil|].
  intros [Ha Hnd]%NoDup_cons [->|Hx]%elem_of_cons [->|Hy]%elem_of_cons E; auto.
  - destruct Ha. rewrite E. by apply list_elem_of_fmap_2.
  - destruct Ha. rewrite <- E. by apply list_elem_of_fmap_2.
Qed.

Lemma is_root_parent_group n : is_root n = true ↔ parent_group n = None.
Proof.
  unfold is_root, parent_group.
  repeat case_bool_decide; simpl; split; (done || congruence).
Qed.

Lemma is_root_parent n :
  is_root n = true ↔ parent n = [] ∨ parent n = u "-".
Proof.
  unfold is_root. rewrite orb_true_iff, !bool_decide_eq_true. done.
Qed.

Lemma roots_of_records g paths :
  g = None →
  (filter (λ kn : list N * Node, is_root kn.2 = true)
     ((λ path, (stem path, record_node d path)) <$> paths)).*1
  = stem <$> filter (λ path, parent_group (record_node d path) = g) paths.
Proof.
  intros Hg. induction paths as [|path paths IH]; [done|].
  rewrite fmap_cons.
  destruct (is_root (record_node d path)) eqn:Hr.
  - rewrite !filter_cons_True; [|by subst g; apply is_root_parent_group | done].
    rewrite !fmap_cons. f_equal. exact IH.
  - rewrite !filter_cons_False; [exact IH| |by simpl; rewrite Hr].
    subst g. rewrite <- is_root_parent_group. by rewrite Hr.
Qed.

(** C2: for records with pairwise distinct keys, the key of every
    record is in the child list of one group only, the group of its
    parent string when that string is neither empty nor [-], the [None]
    group otherwise, and occurs there once; the roots are the nodes
    whose parent is empty or [-], which is the [None] group; and every
    child list is sorted by lowercased key. *)
Theorem build_index_groups :
  distinct_keys d →
  let '(nodes, children) := build_index lower d in
  (∀ path, path ∈ iter_nodes d →
     let name := stem path in
     let n := record_node d path in
     dict_get nodes name = Some n
     ∧ ∀ g, name ∈ default [] (children !! g)
            ↔ g = if bool_decide (parent n = [] ∨ parent n = u "-")
                  then None else Some (parent n))
  ∧ (∀ g, NoDup (default [] (children !! g)))
  ∧ (∀ name, name ∈ tree_roots lower nodes
             ↔ ∃ n, dict_get nodes name = Some n
                    ∧ (parent n = [] ∨ parent n = u "-"))
  ∧ default [] (children !! None) = tree_roots lower nodes
  ∧ (∀ g l, children !! g = Some l → StronglySorted (key_le lower) l).
Proof.
  intros Hnd. pose proof (build_index_spec Hnd) as Hspec.
  destruct (build_index lower d) as [nodes children].
  destruct Hspec as [-> Hch].
  assert (NoDup ((λ path, (stem path, record_node d path)) <$> iter_nodes d).*1)
    as Hkeys by by rewrite <- list_fmap_compose.
  assert (∀ n, (if bool_decide (parent n = [] ∨ parent n = u "-")
                then None else Some (parent n)) = parent_group n) as Hpg.
  { intros n. unfold parent_group.
    repeat case_bool_decide; simpl; try done; tauto. }
  split_and!.
  - intros path Hpath name n. split.
    + apply dict_get_Some; [done|]. apply list_elem_of_fmap. by exists path.
    + intros g. rewrite Hch, elem_of_sort_by, list_elem_of_fmap, Hpg.
      split.
      * intros (path' & E & [Hg Hin]%list_elem_of_filter).
        by rewrite <- (NoDup_fmap_eq stem _ _ _ Hnd Hpath Hin E) in Hg.
      * intros ->. exists path. split; [done|]. by apply list_elem_of_filter.
  - intros g. rewrite Hch, sort_by_Permutation.
    eapply sublist_NoDup; [exact Hnd|]. apply fmap_sublist, sublist_filter.
  - intros name. unfold tree_roots. rewrite elem_of_sort_by, list_elem_of_fmap.
    split.
    + intros ([k n] & -> & [Hr Hin]%list_elem_of_filter). exists n. split.
      * by apply dict_get_Some.
      * by apply is_root_parent.
    + intros (n & Hget & Hp). exists (name, n). split; [done|].
      apply list_elem_of_filter. split; [by apply is_root_parent|].
      by apply dict_get_Some.
  - rewrite Hch. unfold tree_roots. by rewrite (roots_of_records None).
  - intros g l Hl. specialize (Hch g). rewrite Hl in Hch. simpl in Hch.
    rewrite Hch. apply sort_by_sorted.
Qed.

End Index.

(** ** Tree renderer *)

Lemma filter_filter_comm {A} (P Q : A → Prop)
    `{!∀ x, Decision (P x)} `{!∀ x, Decision (Q x)} (l : list A) :
  filter P (filter Q l) = filter Q (filter P l).
Proof.
  induction l as [|x l IH]; [done|].
  destruct (decide (P x)), (decide (Q x));
    repeat (rewrite ?filter_cons_True, ?filter_cons_False by done); by rewrite ?IH.
Qed.

Lemma filter_filter_absorb {A} (P Q : A → Prop)
    `{!∀ x, Decision (P x)} `{!∀ x, Decision (Q x)} (l : list A) :
  (∀ x, P x → Q x) → filter P (filter Q l) = filter P l.
Proof.
  intros HPQ. induction l as [|x l IH]; [done|].
  destruct (decide (P x)) as [HP|HP].
  - rewrite (filter_cons_True Q) by auto. rewrite !filter_cons_True by done.
    by rewrite IH.
  - destruct (decide (Q x));
      repeat (rewrite ?filter_cons_True, ?filter_cons_False by done); by rewrite ?IH.
Qed.

Lemma dedup_first_filter (P : list N → Prop) `{!∀ x, Decision (P x)} l :
  dedup_first (filter P l) = filter P (dedup_first l).
Proof.
  induction l as [|x l IH]; [done|]. simpl.
  destruct (decide (P x)) as [HP|HP].
  - rewrite !filter_cons_True by done. simpl. rewrite IH.
    by rewrite filter_filter_comm.
  - rewrite !filter_cons_False by done. rewrite IH.
    symmetry. apply filter_filter_absorb. by intros y Hy ->.
Qed.

Lemma elem_of_dedup_first x l : x ∈ dedup_first l ↔ x ∈ l.
Proof.
  induction l as [|y l IH]; [done|]. simpl.
  rewrite !elem_of_cons, list_elem_of_filter, IH.
  destruct (decide (x = y)); tauto.
Qed.

Lemma dedup_first_NoDup l : NoDup (dedup_first l).
Proof.
  induction l as [|y l IH]; simpl; [constructor|].
  constructor.
  - rewrite list_elem_of_filter. by intros [Hy _].
  - eapply sublist_NoDup; [exact IH|]. apply sublist_filter.
Qed.

(** The loop of [display] computes [dedup_first]. *)
Lemma dedup_loop_spec seen ordered kids :
  dedup_loop seen ordered kids
  = ordered ++ dedup_first (filter (λ k, k ∉ seen) kids).
Proof.
  revert seen ordered. induction kids as [|k ks IH]; intros seen ordered; simpl.
  - by rewrite app_nil_r.
  - destruct (decide (k ∈ seen)) as [Hk|Hk].
    + rewrite filter_cons_False by (by intros ?). apply IH.
    + rewrite filter_cons_True by done. rewrite IH. simpl.
      rewrite <- app_assoc. simpl. do 2 f_equal.
      rewrite <- dedup_first_filter. f_equal.
      rewrite list_filter_filter. apply list_filter_iff.
      intros y. rewrite elem_of_union, elem_of_singleton. tauto.
Qed.

Lemma dedup_loop_dedup_first kids : dedup_loop ∅ [] kids = dedup_first kids.
Proof.
  rewrite dedup_loop_spec. simpl. f_equal.
  induction kids as [|k ks IH]; [done|].
  rewrite filter_cons_True by apply not_elem_of_empty. by rewrite IH.
Qed.

Lemma dedup_first_app_included l b :
  (∀ x, x ∈ b → x ∈ l) → dedup_first (l ++ b) = dedup_first l.
Proof.
  remember (length l) as n eqn:Hn. revert l b Hn.
  induction (lt_wf n) as [n _ IH]. intros [|x l] b -> Hb.
  - destruct b as [|y b]; [done|].
    exfalso. eapply not_elem_of_nil. apply Hb. left.
  - simpl. f_equal. rewrite <- !dedup_first_filter, filter_app.
    eapply IH; [|reflexivity|].
    + simpl. pose proof (length_filter (λ y, y ≠ x) l). lia.
    + intros y [Hy Hyb]%list_elem_of_filter. apply list_elem_of_filter.
      split; [done|]. by apply Hb, elem_of_cons in Hyb as [->|Hyb].
Qed.

Lemma lookup_kids_kids children name :
  (lookup_kids children name).2
  = kids_of children (SLASH :: name) ++ kids_of children name.
Proof.
  unfold lookup_kids, kids_of.
  by destruct (children !! Some (SLASH :: name)).
Qed.

Lemma lookup_kids_store_slash children name :
  kids_of (lookup_kids children name).1 (SLASH :: name)
  = if decide (is_Some (children !! Some (SLASH :: name)))
    then kids_of children (SLASH :: name) ++ kids_of children name
    else [].
Proof.
  unfold lookup_kids, kids_of.
  destruct (children !! Some (SLASH :: name)) as [l|] eqn:E; simpl.
  - by rewrite lookup_insert_eq.
  - by rewrite E.
Qed.

Lemma lookup_kids_store_other children name key :
  key ≠ SLASH :: name →
  kids_of (lookup_kids children name).1 key = kids_of children key.
Proof.
  intros Hne. unfold lookup_kids, kids_of.
  destruct (children !! Some (SLASH :: name)) as [l|] eqn:E; simpl; [|done].
  rewrite lookup_insert_ne; [done|]. congruence.
Qed.

(** The in-place extension of the list under [/name] changes the
    children of no name that does not itself start with a slash. *)
Lemma lookup_kids_dual_lookup children name n :
  head n ≠ Some SLASH →
  dual_lookup (lookup_kids children name).1 n = dual_lookup children n.
Proof.
  intros Hn. unfold dual_lookup.
  assert (n ≠ SLASH :: name) as Hne by (by intros ->).
  rewrite (lookup_kids_store_other children name n Hne).
  destruct (decide (n = name)) as [->|Hnm].
  - rewrite lookup_kids_store_slash. case_decide as Hs.
    + apply dedup_first_app_included. intros x Hx. apply elem_of_app. by right.
    + unfold kids_of at 2.
      destruct (children !! Some (SLASH :: name)) eqn:E; [|done].
      destruct Hs. eauto.
  - rewrite lookup_kids_store_other; [done|]. congruence.
Qed.

(** The loop over the children calls [disp] on each of them, once and
    in order. *)
Lemma display_children_calls (prefix : list N) (len i : nat)
    (ordered : list (list N)) (children : Children) :
  display_children (λ child _ ch, Some (ch, [child])) prefix len i ordered children
  = Some (children, ordered).
Proof.
  revert i. induction ordered as [|c rest IH]; intros i; [done|].
  simpl. by rewrite IH.
Qed.

Lemma display_unfold (fuel : nat) (nodes : list (list N * Node))
    (name prefix : list N) (children : Children) :
  display (S fuel) nodes name prefix children
  = ('(children', out) ← display_children (display fuel nodes) prefix
                           (length (dual_lookup children name)) 0
                           (dual_lookup children name)
                           (lookup_kids children name).1;
     Some (children', (prefix ++ display_label nodes name) :: out)).
Proof.
  simpl. pose proof (lookup_kids_kids children name) as Hk.
  destruct (lookup_kids children name) as [children1 kids]. simpl in *.
  rewrite dedup_loop_dedup_first. by rewrite Hk.
Qed.



(** The list stored under [/a] after [a] was displayed: the children
    listed under [a] were appended to it. *)
Example display_extends_stored_list :
  let children : Children :=
    <[Some (u "/a") := [u "d"]]> (<[Some (u "a") := [u "b"; u "d"]]> ∅) in
  (λ r, (r.1 !! Some (u "/a"), r.2)) <$> display 2 [] (u "a") [] children
  = Some (Some [u "d"; u "b"; u "d"], [u "a"; u "├─ d"; u "└─ b"]).
Proof. by vm_compute. Qed.

(** C3: the children [display] recurses into for a name are those
    listed under [/name] followed by those listed under the bare name,
    duplicates removed with every child staying where it first occurs;
    the loop visits each of them once, in that order. *)
Theorem display_dual_lookup (fuel : nat) (nodes : list (list N * Node))
    (name prefix : list N) (children : Children) :
  let ordered :=
    dedup_first (kids_of children (SLASH :: name) ++ kids_of children name) in
  display (S fuel) nodes name prefix children
  = ('(children', out) ← display_children (display fuel nodes) prefix
                           (length ordered) 0 ordered
                           (lookup_kids children name).1;
     Some (children', (prefix ++ display_label nodes name) :: out))
  ∧ display_children (λ child _ ch, Some (ch, [child])) prefix
      (length ordered) 0 ordered (lookup_kids children name).1
    = Some ((lookup_kids children name).1, ordered)
  ∧ NoDup ordered
  ∧ ∀ c, c ∈ ordered
         ↔ c ∈ kids_of children (SLASH :: name) ∨ c ∈ kids_of children name.
Proof.
  intros ordered. split_and!.
  - apply display_unfold.
  - apply display_children_calls.
  - apply dedup_first_NoDup.
  - intros c. unfold ordered. by rewrite elem_of_dedup_first, elem_of_app.
Qed.

(** *** Termination on an index without cycle *)

Lemma kids_of_listed (children : Children) key c :
  c ∈ kids_of children key → c ∈ listed_names children.
Proof.
  unfold kids_of, listed_names.
  destruct (children !! Some key) as [l|] eqn:E; simpl; [|by intros ?%elem_of_nil].
  intros Hc. apply list_elem_of_join. exists l. split; [done|].
  apply list_elem_of_fmap. exists (Some key, l). split; [done|].
  by apply elem_of_map_to_list.
Qed.

Lemma dual_lookup_child_of (children : Children) name c :
  c ∈ dual_lookup children name ↔ child_of children name c.
Proof. unfold dual_lookup, child_of. apply elem_of_dedup_first. Qed.

Lemma child_of_listed (children : Children) name c :
  child_of children name c → c ∈ listed_names children.
Proof.
  unfold child_of. intros [H|H]%elem_of_app; by eapply kids_of_listed.
Qed.

Section Termination.
Variable nodes : list (list N * Node).
Variable index : Children.
Hypothesis index_acyclic : acyclic index.
Hypothesis index_names : ∀ c, c ∈ listed_names index → head c ≠ Some SLASH.

Local Abbreviation same_children := (same_children index).

Lemma same_children_lookup_kids (children : Children) name :
  same_children children → same_children (lookup_kids children name).1.
Proof.
  intros Hs n Hn. rewrite lookup_kids_dual_lookup by done. by apply Hs.
Qed.

Lemma display_terminates_from (universe : list (list N)) :
  (∀ c, c ∈ listed_names index → c ∈ universe) →
  ∀ (fuel : nat) (anc : list (list N)) (name prefix : list N)
    (children : Children),
    same_children children →
    head name ≠ Some SLASH →
    NoDup anc →
    (∀ a, a ∈ anc → rtc (child_of index) a name) →
    (∀ a, a ∈ anc → a ∈ universe) →
    (length universe < fuel + length anc)%nat →
    ∃ children' out,
      display fuel nodes name prefix children = Some (children', out)
      ∧ same_children children'.
Proof.
  intros Huniv fuel.
  induction fuel as [|fuel IH];
    intros anc name prefix children Hsame Hname Hnd Hanc Hin Hlen.
  - pose proof (submseteq_length _ _ (NoDup_submseteq _ _ Hnd Hin)). simpl in *. lia.
  - assert (∀ (rest : list (list N)) (i len : nat) (children : Children),
              (∀ c, c ∈ rest → child_of index name c) →
              same_children children →
              ∃ children' out,
                display_children (display fuel nodes) prefix len i rest children
                = Some (children', out)
                ∧ same_children children') as Hloop.
    { clear children Hsame.
      intros rest. induction rest as [|c rest IHrest];
        intros i len children Hsub Hsame.
      { simpl. eauto. }
      assert (child_of index name c) as Hc by (apply Hsub; left).
      destruct (IH (c :: anc) c
                  (prefix ++ if bool_decide (i = len - 1)%nat
                             then u "└─ " else u "├─ ") children)
        as (children1 & out1 & E1 & Hsame1); [done| | | | | |].
      - apply index_names. by eapply child_of_listed.
      - constructor; [|done]. intros Hca.
        apply (index_acyclic c). eapply tc_rtc_l; [by apply Hanc|].
        by apply tc_once.
      - intros a [->|Ha]%elem_of_cons; [done|].
        eapply rtc_r; [by apply Hanc|done].
      - intros a [->|Ha]%elem_of_cons; [|by apply Hin].
        apply Huniv. by eapply child_of_listed.
      - simpl. lia.
      - destruct (IHrest (S i) len children1) as (children2 & out2 & E2 & Hsame2);
          [by intros x Hx; apply Hsub; right | done |].
        cbn [display_children]. rewrite E1. simpl. rewrite E2. simpl. eauto. }
    rewrite display_unfold.
    destruct (Hloop (dual_lookup children name) 0%nat
                (length (dual_lookup children name))
                (lookup_kids children name).1)
      as (children' & out & E & Hsame').
    + intros c Hc. apply dual_lookup_child_of. by rewrite <- (Hsame name Hname).
    + by apply same_children_lookup_kids.
    + rewrite E. simpl. eauto.
Qed.

Lemma display_terminates (name prefix : list N) (children : Children) :
  same_children children → head name ≠ Some SLASH →
  ∃ children' out,
    display (S (length (listed_names index))) nodes name prefix children
    = Some (children', out)
    ∧ same_children children'.
Proof.
  intros Hsame Hname.
  apply (display_terminates_from (name :: listed_names index)) with (anc := [name]).
  - intros c Hc. by right.
  - done.
  - done.
  - apply NoDup_singleton.
  - intros a ->%list_elem_of_singleton. done.
  - intros a ->%list_elem_of_singleton. left.
  - simpl. lia.
Qed.

Lemma display_roots_terminates (roots : list (list N)) (children : Children) :
  same_children children →
  (∀ r, r ∈ roots → head r ≠ Some SLASH) →
  ∃ children' out,
    display_roots (display (S (length (listed_names index))) nodes) roots children
    = Some (children', out)
    ∧ same_children children'.
Proof.
  revert children. induction roots as [|r roots IH]; intros children Hsame Hroots.
  - simpl. eauto.
  - destruct (display_terminates r [] children Hsame)
      as (children1 & out1 & E1 & Hsame1); [apply Hroots; left|].
    destruct (IH children1 Hsame1) as (children2 & out2 & E2 & Hsame2).
    { intros x Hx. apply Hroots. by right. }
    cbn [display_roots]. rewrite E1. cbn [mbind option_bind].
    rewrite E2. cbn [mbind option_bind]. eauto.
Qed.

End Termination.

(** ** The tree command *)

Lemma elem_of_iter_nodes (d : gmap (list N) (list N)) path :
  path ∈ iter_nodes d ↔ glob_txt path = true ∧ is_Some (d !! path).
Proof.
  unfold iter_nodes. rewrite elem_of_sort_by, list_elem_of_filter.
  rewrite list_elem_of_fmap. split.
  - intros [Hg ([k v] & -> & Hin)]. split; [done|].
    apply elem_of_map_to_list in Hin. simpl. eauto.
  - intros [Hg [v Hv]]. split; [done|]. exists (path, v). split; [done|].
    by apply elem_of_map_to_list.
Qed.

Lemma stem_subseteq file c : c ∈ stem file → c ∈ file.
Proof.
  unfold stem. destruct (rfind 46 file) as [i|]; [|done].
  destruct (_ && _); [|done]. apply subseteq_take.
Qed.

Lemma dict_set_keys nodes k v x :
  x ∈ (dict_set nodes k v).*1 → x = k ∨ x ∈ nodes.*1.
Proof.
  induction nodes as [|[k0 v0] nodes IH]; simpl.
  - intros ->%list_elem_of_singleton. by left.
  - destruct (decide (k = k0)) as [->|Hne]; simpl.
    + rewrite !elem_of_cons. tauto.
    + rewrite !elem_of_cons. intros [->|Hx]; [tauto|].
      destruct (IH Hx); tauto.
Qed.

Lemma dict_get_key nodes k v : dict_get nodes k = Some v → k ∈ nodes.*1.
Proof.
  induction nodes as [|[k0 v0] nodes IH]; simpl; [done|].
  destruct (decide (k = k0)) as [->|Hne]; [left|]. intros H. right. auto.
Qed.

Lemma dict_get_None nodes k : k ∉ nodes.*1 → dict_get nodes k = None.
Proof.
  intros Hk. destruct (dict_get nodes k) eqn:E; [|done].
  destruct Hk. by eapply dict_get_key.
Qed.

Section Tree.
Variable lower : list N → list N.

(** Every key of the index and every name in a child list is the stem
    of a record file. *)
Lemma index_loop_names (d : gmap (list N) (list N)) paths :
  let r := foldl (index_step (Some d)) ([], ∅) paths in
  (∀ k, k ∈ r.1.*1 → k ∈ stem <$> paths)
  ∧ (∀ g l c, r.2 !! g = Some l → c ∈ l → c ∈ stem <$> paths).
Proof.
  induction paths as [|path paths IH] using rev_ind.
  - simpl. split; [by intros k ?%elem_of_nil|].
    intros g l c. by rewrite lookup_empty.
  - cbv zeta in *. rewrite foldl_snoc.
    destruct (foldl (index_step (Some d)) ([], ∅) paths) as [nodes children].
    destruct IH as [IHn IHc]. simpl. rewrite fmap_app. split.
    + intros k [->|Hk]%dict_set_keys; apply elem_of_app; [right; left|].
      left. by apply IHn.
    + intros g l c Hl Hc. apply elem_of_app.
      destruct (decide (parent_group (read_node (read_text (Some d) path)) = g))
        as [<-|Hne].
      * rewrite lookup_insert_eq in Hl. injection Hl as <-.
        apply elem_of_app in Hc as [Hc|Hc];
          [|apply list_elem_of_singleton in Hc as ->; right; left].
        left. destruct (children !! _) as [l0|] eqn:E; simpl in Hc.
        -- by eapply IHc.
        -- by apply elem_of_nil in Hc.
      * rewrite lookup_insert_ne in Hl by done. left. by eapply IHc.
Qed.

Lemma build_index_names (d : gmap (list N) (list N)) :
  (∀ k, k ∈ (build_index lower d).1.*1 → k ∈ stem <$> iter_nodes d)
  ∧ (∀ c, c ∈ listed_names (build_index lower d).2 → c ∈ stem <$> iter_nodes d).
Proof.
  unfold build_index. pose proof (index_loop_names d (iter_nodes d)) as H.
  cbv zeta in H.
  destruct (foldl (index_step (Some d)) ([], ∅) (iter_nodes d))
    as [nodes children].
  destruct H as [Hn Hc]. simpl in *. split; [done|].
  intros c (l & Hcl & ([g l'] & -> & Hin)%list_elem_of_fmap)%list_elem_of_join.
  apply elem_of_map_to_list in Hin. rewrite lookup_fmap in Hin. simpl in Hcl.
  destruct (children !! g) as [l0|] eqn:E; [|done].
  injection Hin as <-. apply elem_of_sort_by in Hcl. by eapply Hc.
Qed.

Lemma stem_no_slash (d : gmap (list N) (list N)) c :
  valid_names d → c ∈ stem <$> iter_nodes d → head c ≠ Some SLASH.
Proof.
  intros Hd (path & -> & [_ Hp]%elem_of_iter_nodes)%list_elem_of_fmap Hh.
  apply (Hd path Hp). apply stem_subseteq.
  destruct (stem path) as [|x s]; [done|]. injection Hh as ->. left.
Qed.

Lemma tree_roots_keys nodes r : r ∈ tree_roots lower nodes → r ∈ nodes.*1.
Proof.
  unfold tree_roots. rewrite elem_of_sort_by.
  intros (kn & -> & [_ Hin]%list_elem_of_filter)%list_elem_of_fmap.
  by apply list_elem_of_fmap_2.
Qed.

Lemma cmd_tree_terminates (d : gmap (list N) (list N)) data_dir root :
  valid_names d → acyclic (build_index lower d).2 →
  ∃ res,
    cmd_tree lower (S (length (listed_names (build_index lower d).2)))
      data_dir root (Some d) = Some res.
Proof.
  intros Hvalid Hacyc. unfold cmd_tree.
  destruct (build_index_names d) as [Hkeys Hnames].
  destruct (build_index lower d) as [nodes children] eqn:Hbuild.
  cbn [fst snd] in *.
  assert (∀ c, c ∈ listed_names children → head c ≠ Some SLASH) as Hok.
  { intros c Hc. eapply stem_no_slash; eauto. }
  assert (∃ children' out,
             display_roots
               (display (S (length (listed_names children))) nodes)
               (tree_roots lower nodes) children = Some (children', out))
    as (children' & out & Eroots).
  { destruct (display_roots_terminates nodes children Hacyc Hok
                (tree_roots lower nodes) children)
      as (children' & out & E & _); [done| |eauto].
    intros r Hr%tree_roots_keys. eapply stem_no_slash; eauto. }
  destruct root as [start|]; [|rewrite Eroots; simpl; eauto].
  case_bool_decide; [rewrite Eroots; simpl; eauto|].
  case_bool_decide as Hget; [eauto|].
  destruct (display_terminates nodes children Hacyc Hok start [] children)
    as (children1 & out1 & E & _); [done| |rewrite E; simpl; eauto].
  destruct (dict_get nodes start) as [n|] eqn:En; [|done].
  eapply stem_no_slash; eauto. apply Hkeys. by eapply dict_get_key.
Qed.

End Tree.

Section Divergence.
Variable lower : list N → list N.

Lemma cycle_index :
  build_index lower cycle_dir
  = ([(u "a", mkNode (u "Node") (u "b") []);
      (u "b", mkNode (u "Node") (u "a") [])],
     <[Some (u "a") := [u "b"]]> (<[Some (u "b") := [u "a"]]> ∅)).
Proof. vm_compute. reflexivity. Qed.

Lemma cycle_valid_names : valid_names cycle_dir.
Proof.
  intros file [text Hf]. unfold cycle_dir in Hf.
  apply lookup_insert_Some in Hf as [[<- _]|[_ Hf]].
  { by_evaluation. }
  apply lookup_insert_Some in Hf as [[<- _]|[_ Hf]].
  { by_evaluation. }
  by rewrite lookup_empty in Hf.
Qed.

Lemma cycle_display_diverges nodes fuel :
  let children : Children :=
    <[Some (u "a") := [u "b"]]> (<[Some (u "b") := [u "a"]]> ∅) in
  ∀ prefix,
    display fuel nodes (u "a") prefix children = None
    ∧ display fuel nodes (u "b") prefix children = None.
Proof.
  intros children. induction fuel as [|fuel IH]; intros prefix; [done|].
  rewrite !display_unfold.
  assert (dual_lookup children (u "a") = [u "b"]) as -> by (by vm_compute).
  assert (dual_lookup children (u "b") = [u "a"]) as -> by (by vm_compute).
  assert ((lookup_kids children (u "a")).1 = children) as -> by (by vm_compute).
  assert ((lookup_kids children (u "b")).1 = children) as -> by (by vm_compute).
  cbn [display_children length].
  split.
  - by rewrite (proj2 (IH _)).
  - by rewrite (proj1 (IH _)).
Qed.

Lemma cycle_not_acyclic :
  tc (child_of (build_index lower cycle_dir).2) (u "a") (u "a").
Proof.
  rewrite cycle_index. simpl.
  apply tc_l with (u "b"); [|apply tc_once].
  - unfold child_of. by_evaluation.
  - unfold child_of. by_evaluation.
Qed.

(** C8: [display] detects no cycle.  With two records that name each
    other as parent the recursion started at one of them comes to no
    end, whatever depth it is allowed; and on an index whose
    parent-child relation has no cycle the rendering from any start, or
    from the roots, ends. *)
Theorem display_no_cycle_detection :
  (∃ d start,
      valid_names d
      ∧ tc (child_of (build_index lower d).2) start start
      ∧ ∀ fuel data_dir, cmd_tree lower fuel data_dir (Some start) (Some d) = None)
  ∧ (∀ d, valid_names d → acyclic (build_index lower d).2 →
       ∀ data_dir root, ∃ fuel res,
         cmd_tree lower fuel data_dir root (Some d) = Some res).
Proof.
  split.
  - exists cycle_dir, (u "a"). split_and!.
    + apply cycle_valid_names.
    + apply cycle_not_acyclic.
    + intros fuel data_dir. unfold cmd_tree. rewrite cycle_index.
      rewrite bool_decide_eq_false_2 by done.
      rewrite bool_decide_eq_false_2 by (by vm_compute).
      by rewrite (proj1 (cycle_display_diverges _ fuel [])).
  - intros d Hvalid Hacyc data_dir root.
    destruct (cmd_tree_terminates lower d data_dir root Hvalid Hacyc) as [res E].
    eauto.
Qed.

End Divergence.

(** ** Running the program *)

Lemma lower_latin1_slug_chars s :
  Forall (λ c, slug_char c = true) s → lower_latin1 s = s.
Proof.
  induction 1 as [|c s Hc _ IH]; [done|].
  unfold lower_latin1 in *. simpl. rewrite IH. f_equal.
  assert (((65 <=? c) && (c <=? 90))
          || ((0xC0 <=? c) && (c <=? 0xDE) && negb (c =? 0xD7)) = false) as ->;
    [|done].
  unfold slug_char, in_az09, is_underscore, UNDERSCORE in Hc.
  rewrite !orb_true_iff, !andb_true_iff, !N.leb_le, N.eqb_eq in Hc.
  rewrite orb_false_iff, !andb_false_iff, !N.leb_gt. lia.
Qed.

(** Below U+0100 a name without letter or digit of ASCII gets the empty
    key. *)
Lemma slugify_latin1_no_alnum name :
  Forall (λ c, in_az09 c = false ∧ ¬ (65 ≤ c ≤ 90)) name →
  slugify lower_latin1 name = [].
Proof.
  intros Hno. apply slugify_no_az09. unfold lower_latin1.
  apply Forall_fmap. eapply Forall_impl; [exact Hno|].
  intros c [Hc Hup]. simpl.
  destruct (_ || _) eqn:E; [|done].
  unfold in_az09 in *.
  rewrite orb_false_iff, !andb_false_iff, !N.leb_gt in Hc.
  rewrite orb_true_iff, !andb_true_iff, !N.leb_le in E.
  rewrite orb_false_iff, !andb_false_iff, !N.leb_gt. lia.
Qed.

(** C1, on a tree of depth two: where the specified art continues the
    running prefix with a bar or with blanks, [display] repeats the
    branch glyph of the parent, because the recursive call is given
    [prefix + branch] and [child_prefix] is never used. *)
Theorem display_grandchild_prefix :
  cmd_tree lower_latin1 3 (u "/data") (Some (u "middle_earth")) world_fs
  = Some ([u "middle_earth [World]";
           u "├─ gondor [Kingdom]";
           u "├─ └─ minas_tirith [City]";
           u "└─ rohan [Kingdom]";
           u "└─ └─ edoras [City]"], 0%Z)
  ∧ render_ref 3 (build_index lower_latin1 world_dir).1
      (build_index lower_latin1 world_dir).2 (u "middle_earth") [] []
    = Some [u "middle_earth [World]";
            u "├─ gondor [Kingdom]";
            u "│  └─ minas_tirith [City]";
            u "└─ rohan [Kingdom]";
            u "   └─ edoras [City]"].
Proof. split; by vm_compute. Qed.

(** The scenario of the specification, one level deep, where the art is
    as specified. *)
Example edoras_rohan :
  cmd_tree lower_latin1 3 (u "/data") (Some (u "edoras"))
    (run_adds (u "/data")
       [mkAdd (u "Edoras") (u "Kingdom") (Some (u "-")) [] false;
        mkAdd (u "Rohan") (u "Continent") (Some (u "edoras")) [] false] None)
  = Some ([u "edoras [Kingdom]"; u "└─ rohan [Continent]"], 0%Z).
Proof. by vm_compute. Qed.

(** In a directory that [init] has just made nothing is printed: the
    seeded [README.txt] is indexed, but it is no root. *)
Example tree_after_init :
  cmd_tree lower_latin1 1 (u "/data") None (res_fs (cmd_init (u "/data") None))
  = Some ([], 0%Z).
Proof. by vm_compute. Qed.

(** C4 as stated fails: a type given with a leading blank is read back
    without it. *)
Lemma roundtrip_padded_type :
  let r := cmd_add lower_latin1 (u "/data")
             (mkAdd (u "Edoras") (u " Kingdom") (Some (u "rohan")) [] false) None in
  res_code r = 0%Z
  ∧ type (read_node (read_text (res_fs r) (node_path lower_latin1 (u "Edoras"))))
    = u "Kingdom"
  ∧ type (read_node (read_text (res_fs r) (node_path lower_latin1 (u "Edoras"))))
    ≠ u " Kingdom".
Proof. by vm_compute. Qed.

(** Other fields that do not come back: an empty parent is stored as
    [-], and a form feed in the notes is read as a line boundary. *)
Example roundtrip_empty_parent :
  parent (read_node (read_text
    (res_fs (cmd_add lower_latin1 (u "/data")
               (mkAdd (u "Edoras") (u "Kingdom") (Some []) [] false) None))
    (node_path lower_latin1 (u "Edoras")))) = u "-".
Proof. by vm_compute. Qed.

Example roundtrip_form_feed :
  notes (read_node (read_text
    (res_fs (cmd_add lower_latin1 (u "/data")
               (mkAdd (u "Edoras") (u "Kingdom") None (u "a" ++ [12] ++ u "b") false)
               None))
    (node_path lower_latin1 (u "Edoras")))) = u "a" ++ [NL] ++ u "b".
Proof. by vm_compute. Qed.

(** C2 as stated fails: two record files have the key [.txt]; the key
    is put in the child group of [rohan] for the first and in that of
    [gondor] for the second, so it is in two groups, and [nodes] keeps
    the second record only, whose parent is not [rohan]. *)
Lemma build_index_two_groups :
  iter_nodes same_stem_dir = [u ".txt"; u ".txt.txt"]
  ∧ stem <$> iter_nodes same_stem_dir = [u ".txt"; u ".txt"]
  ∧ (build_index lower_latin1 same_stem_dir).2 !! Some (u "rohan")
    = Some [u ".txt"]
  ∧ (build_index lower_latin1 same_stem_dir).2 !! Some (u "gondor")
    = Some [u ".txt"]
  ∧ (build_index lower_latin1 same_stem_dir).1
    = [(u ".txt", mkNode (u "City") (u "gondor") [])].
Proof. by vm_compute. Qed.

(** C10 as stated fails: after [init] and [add readme] the name
    [README] differs from its key [readme], [show README] succeeds,
    and [tree -r README] finds the stem of [README.txt] among the keys
    and renders it. *)
Lemma tree_root_readme :
  slugify lower_latin1 (u "README") ≠ u "README"
  ∧ res_code (cmd_show lower_latin1 (u "/data") (u "README") readme_fs) = 0%Z
  ∧ cmd_tree lower_latin1 2 (u "/data") (Some (u "README")) readme_fs
    = Some ([u "README [World Builder data directory.]"], 0%Z)
  ∧ ∀ fuel, cmd_tree lower_latin1 fuel (u "/data") (Some (u "README")) readme_fs
            ≠ Some ([u "Root not found: README"], 1%Z).
Proof.
  split_and!; [by vm_compute..|].
  intros fuel. unfold cmd_tree.
  assert (readme_fs = Some (default ∅ readme_fs)) as -> by (by vm_compute).
  destruct (build_index lower_latin1 (default ∅ readme_fs))
    as [nodes children] eqn:Eb.
  assert (dict_get nodes (u "README") ≠ None) as Hget.
  { replace nodes with (build_index lower_latin1 (default ∅ readme_fs)).1
      by (by rewrite Eb).
    by vm_compute. }
  rewrite bool_decide_eq_false_2 by (by vm_compute).
  rewrite bool_decide_eq_false_2 by done.
  destruct (display _ _ _ _ _) as [[? ?]|]; simpl; congruence.
Qed.

Section RootLookup.
Variable lower : list N → list N.
Hypothesis lower_slug_chars :
  ∀ s, Forall (λ c, slug_char c = true) s → lower s = s.

Lemma slugify_nil : slugify lower [] = [].
Proof. apply slugify_slug; [done|]. by repeat split. Qed.

(** C10, as the code has it: [tree -r] looks its argument up among the
    keys as typed.  For a name that differs from its key and is not
    itself the stem of a record file, [tree -r] exits with status 1 and
    prints [Root not found], although [show] succeeds on the record of
    that name. *)
Theorem tree_root_verbatim (data_dir name : list N)
    (d : gmap (list N) (list N)) (fuel : nat) :
  slugify lower name ≠ name →
  is_Some (d !! node_path lower name) →
  name ∉ stem <$> iter_nodes d →
  res_code (cmd_show lower data_dir name (Some d)) = 0%Z
  ∧ cmd_tree lower fuel data_dir (Some name) (Some d)
    = Some ([u "Root not found: " ++ name], 1%Z).
Proof.
  intros Hslug Hfile Hstem. split.
  - unfold cmd_show. cbn [path_exists].
    by rewrite bool_decide_eq_true_2.
  - unfold cmd_tree.
    pose proof (proj1 (build_index_names lower d) name) as Hkeys.
    destruct (build_index lower d) as [nodes children]. cbn [fst] in Hkeys.
    rewrite bool_decide_eq_false_2.
    2:{ intros ->. by rewrite slugify_nil in Hslug. }
    rewrite bool_decide_eq_true_2; [done|].
    apply dict_get_None. auto.
Qed.

(** When every record file is named after a key, as the files [add]
    creates are, no name that differs from its key is a stem. *)
Lemma slug_stems_exclude (d : gmap (list N) (list N)) name :
  (∀ path, path ∈ iter_nodes d → is_slug (stem path)) →
  slugify lower name ≠ name →
  name ∉ stem <$> iter_nodes d.
Proof.
  intros Hall Hne (path & -> & Hin)%list_elem_of_fmap.
  apply Hne. apply slugify_slug; auto.
Qed.

End RootLookup.

(** ** Instances on concrete directories *)

Lemma acyclic_by_rank (rank : list N → nat) (children : Children) :
  map_Forall (λ g l,
    match g with
    | Some key =>
      forallb (λ c, (rank c <? rank key)%nat
                    && (negb (bool_decide (head key = Some SLASH))
                        || (rank c <? rank (tail key))%nat)) l
    | None => true
    end = true) children →
  acyclic children.
Proof.
  intros Hall.
  assert (∀ key c, c ∈ kids_of children key →
                   (rank c < rank key)%nat
                   ∧ (head key = Some SLASH → rank c < rank (tail key))%nat) as Hk.
  { intros key c. unfold kids_of.
    destruct (children !! Some key) as [l|] eqn:E; simpl; [|by intros ?%elem_of_nil].
    intros Hc. specialize (Hall _ _ E). simpl in Hall.
    rewrite forallb_forall in Hall. apply list_elem_of_In, Hall in Hc.
    apply andb_true_iff in Hc as [H1 H2]. apply Nat.ltb_lt in H1.
    split; [done|]. intros Hh.
    rewrite bool_decide_eq_true_2 in H2 by done. by apply Nat.ltb_lt in H2. }
  assert (∀ p c, child_of children p c → (rank c < rank p)%nat) as Hstep.
  { intros p c [Hc|Hc]%elem_of_app; apply Hk in Hc as [H1 H2]; [|done].
    by apply H2. }
  assert (∀ p c, tc (child_of children) p c → (rank c < rank p)%nat) as Htc.
  { intros p c. induction 1 as [p c Hc|p q c Hq _ IH].
    - by apply Hstep.
    - apply Hstep in Hq. lia. }
  intros n Hn. apply Htc in Hn. lia.
Qed.

Lemma world_dir_valid_names : valid_names world_dir.
Proof.
  intros file [text Hf]. revert file text Hf.
  change (map_Forall (λ file _, SLASH ∉ file) world_dir).
  by_evaluation.
Qed.

Lemma world_dir_acyclic : acyclic (build_index lower_latin1 world_dir).2.
Proof.
  apply (acyclic_by_rank
           (λ n, if decide (n = u "middle_earth") then 2
                 else if decide (n = u "gondor") then 1
                 else if decide (n = u "rohan") then 1 else 0)%nat).
  by_evaluation.
Qed.

Lemma slugify_reference_witness :
  slugify lower_latin1 (u "  The Old--King!! ")
  = slugify_ref lower_latin1 (u "  The Old--King!! ")
  ∧ slugify lower_latin1 (u "?! ...") = [].
Proof.
  destruct (slugify_reference lower_latin1) as [Href Hempty].
  split; [apply Href|]. apply Hempty.
  by_evaluation.
Defined.

Lemma slugify_idempotent_witness :
  slugify lower_latin1 (slugify lower_latin1 (u "Minas Tirith"))
  = slugify lower_latin1 (u "Minas Tirith").
Proof. apply (slugify_idempotent lower_latin1 lower_latin1_slug_chars). Defined.

Lemma add_read_roundtrip_witness :
  let r := cmd_add lower_latin1 (u "/data")
             (mkAdd (u "Edoras") (u "City") (Some (u "rohan"))
                    (u "Golden hall." ++ [NL; NL] ++ u "Seat of the king." ++ [NL])
                    true) world_fs in
  res_code r = 0%Z
  ∧ res_exc r = None
  ∧ read_node (read_text (res_fs r) (node_path lower_latin1 (u "Edoras")))
    = mkNode (u "City") (u "rohan")
        (u "Golden hall." ++ [NL; NL] ++ u "Seat of the king." ++ [NL]).
Proof.
  apply (add_read_roundtrip lower_latin1 (u "/data") (u "Edoras") (u "City")
           (u "rohan")
           (u "Golden hall." ++ [NL; NL] ++ u "Seat of the king." ++ [NL])
           true world_fs).
  - split; [by_evaluation | by vm_compute].
  - split; [by_evaluation | by vm_compute].
  - done.
  - by_evaluation.
  - by vm_compute.
  - by vm_compute.
  - by vm_compute.
  - by left.
Defined.

Lemma build_index_groups_witness :
  distinct_keys world_dir
  ∧ default [] ((build_index lower_latin1 world_dir).2 !! None)
    = tree_roots lower_latin1 (build_index lower_latin1 world_dir).1
  ∧ ∀ g, NoDup (default [] ((build_index lower_latin1 world_dir).2 !! g)).
Proof.
  assert (distinct_keys world_dir) as Hd.
  { by_evaluation. }
  split; [exact Hd|].
  pose proof (build_index_groups lower_latin1 world_dir Hd) as H.
  destruct (build_index lower_latin1 world_dir) as [nodes children].
  destruct H as (_ & Hnd & _ & Hroots & _). by split.
Defined.

Lemma add_refuses_existing_witness :
  let r := cmd_add lower_latin1 (u "/data")
             (mkAdd (u "Rohan") (u "Realm") None (u "overwritten") false)
             (Some world_dir) in
  res_code r = 1%Z
  ∧ res_out r = [u "Refusing to overwrite existing node: /data/rohan.txt"]
  ∧ res_fs r = Some world_dir
  ∧ res_fs r ≫= (.!! u "rohan.txt")
    = Some (u "Kingdom" ++ [NL] ++ u "middle_earth" ++ [NL]).
Proof.
  apply (add_refuses_existing lower_latin1 (u "/data")
           (mkAdd (u "Rohan") (u "Realm") None (u "overwritten") false)
           world_dir (u "Kingdom" ++ [NL] ++ u "middle_earth" ++ [NL])).
  - by vm_compute.
  - done.
Defined.

Lemma show_missing_witness :
  cmd_show lower_latin1 (u "/data") (u "Mordor") world_fs
  = mkResult world_fs [u "Node not found: /data/mordor.txt"] 1.
Proof.
  apply (show_missing lower_latin1 (u "/data") (u "Mordor") world_fs).
  by vm_compute.
Defined.

Lemma tree_root_verbatim_witness :
  res_code (cmd_show lower_latin1 (u "/data") (u "Minas Tirith") (Some world_dir))
  = 0%Z
  ∧ cmd_tree lower_latin1 3 (u "/data") (Some (u "Minas Tirith")) (Some world_dir)
    = Some ([u "Root not found: Minas Tirith"], 1%Z).
Proof.
  apply (tree_root_verbatim lower_latin1 lower_latin1_slug_chars (u "/data")
           (u "Minas Tirith") world_dir 3).
  - by vm_compute.
  - by_evaluation.
  - by_evaluation.
Defined.

Lemma display_no_cycle_detection_witness :
  ∃ fuel res,
    cmd_tree lower_latin1 fuel (u "/data") (Some (u "middle_earth")) (Some world_dir)
    = Some res.
Proof.
  destruct (display_no_cycle_detection lower_latin1) as [_ Hends].
  apply (Hends world_dir world_dir_valid_names world_dir_acyclic).
Defined.

(* ================================================================== *)
(** * Further properties of the program *)

(** ** Records as [read_node] returns them *)

Lemma strip_by_Forall (Q : N → Prop) p s : Forall Q s → Forall Q (strip_by p s).
Proof.
  destruct (strip_by_split p s) as (w1 & w2 & _ & _ & E). intros H.
  rewrite E in H. by apply Forall_app in H as [_ [H _]%Forall_app].
Qed.

Lemma strip_by_idemp p s : strip_by p (strip_by p s) = strip_by p s.
Proof.
  assert (∀ c, head (strip_by p s) = Some c → p c = false) as Hh.
  { intros c Hc. apply (lstrip_by_head p s).
    destruct (rstrip_by_prefix p (lstrip_by p s)) as [w E].
    rewrite E. fold (strip_by p s). by destruct (strip_by p s). }
  unfold strip_by at 1. rewrite lstrip_by_id by done.
  apply rstrip_by_id. intros c. apply rstrip_by_last.
Qed.

Lemma splitlines_no_break s :
  Forall (Forall (λ c, is_linebreak c = false)) (splitlines s).
Proof.
  remember (length s) as n eqn:Hn. revert s Hn.
  induction (lt_wf n) as [n _ IH]. intros [|c s] ->; [constructor|].
  assert (Forall (Forall (λ c, is_linebreak c = false)) (splitlines s)) as Hs.
  { eapply IH; [|reflexivity]. simpl. lia. }
  simpl. destruct (is_linebreak c) eqn:Hc.
  - constructor; [constructor|]. destruct s as [|c' s'']; [constructor|].
    destruct (_ && _); [|done]. eapply IH; [|reflexivity]. simpl. lia.
  - destruct (splitlines s) as [|l ls]; [by repeat constructor|].
    apply Forall_cons in Hs as [Hl Hls]. constructor; [by constructor|done].
Qed.

Lemma join_newline_only ls :
  Forall (Forall (λ c, is_linebreak c = false)) ls → newline_only (join [NL] ls).
Proof.
  induction 1 as [|l ls Hl Hls IH]; [constructor|].
  assert (newline_only l) as Hl'.
  { eapply Forall_impl; [exact Hl|]. intros c Hc. by rewrite Hc. }
  destruct ls as [|l' ls]; [done|].
  change (join [NL] (l :: l' :: ls)) with (l ++ [NL] ++ join [NL] (l' :: ls)).
  apply Forall_app. split; [done|]. apply Forall_cons. by split.
Qed.

Lemma single_line_strip l :
  Forall (λ c, is_linebreak c = false) l → single_line (strip l).
Proof.
  intros Hl. split; [by apply strip_by_Forall | apply strip_by_idemp].
Qed.

Lemma read_node_fields_shape content :
  single_line (type (read_node content))
  ∧ single_line (parent (read_node content))
  ∧ newline_only (notes (read_node content)).
Proof.
  unfold read_node. pose proof (splitlines_no_break content) as Hs.
  destruct (splitlines content) as [|l0 [|l1 ls]]; simpl.
  - split_and!; [split; [by_evaluation|done] | split; [by_evaluation|done]
                | constructor].
  - apply Forall_cons in Hs as [H0 _].
    split_and!; [by apply single_line_strip | split; [by_evaluation|done]
                | constructor].
  - apply Forall_cons in Hs as [H0 [H1 Hls]%Forall_cons].
    split_and!; [by apply single_line_strip..|].
    case_bool_decide; [|constructor]. by apply join_newline_only.
Qed.

(** X3: whatever the file holds, [read_node] returns a type and a parent
    without line boundary and without white space around them, and
    notes whose only line boundary is the newline. *)
Theorem read_node_normal_form content :
  single_line (type (read_node content))
  ∧ single_line (parent (read_node content))
  ∧ newline_only (notes (read_node content)).
Proof. exact (read_node_fields_shape content). Qed.

Lemma splitlines_single l :
  Forall (λ c, is_linebreak c = false) l → l ≠ [] → splitlines l = [l].
Proof.
  induction 1 as [|c l Hc Hl IH]; [done|]. intros _. simpl. rewrite Hc.
  destruct l as [|c' l]; [done|]. by rewrite IH.
Qed.

(** X4: a record of one line, terminated or not, has that line stripped as
    its type, the parent [-] and no notes; the empty file has the type
    [Node], while a file holding only a newline has the empty type. *)
Theorem read_node_one_line l :
  Forall (λ c, is_linebreak c = false) l →
  read_node (l ++ [NL]) = mkNode (strip l) (u "-") []
  ∧ read_node l = mkNode (if bool_decide (l = []) then u "Node" else strip l)
                    (u "-") [].
Proof.
  intros Hl. split.
  - unfold read_node. rewrite (splitlines_line l [] Hl). done.
  - case_bool_decide as E; [by subst|].
    unfold read_node. by rewrite (splitlines_single l Hl E).
Qed.

(** The fields read from text without surrogate have none. *)
Lemma encodable_Forall s :
  encodable s = true ↔ Forall (λ c, is_surrogate c = false) s.
Proof.
  unfold encodable. rewrite forallb_forall, Forall_forall.
  split; intros H c Hc.
  - apply negb_true_iff, H. by apply list_elem_of_In.
  - apply negb_true_iff, H. by apply list_elem_of_In.
Qed.

Lemma splitlines_Forall (Q : N → Prop) s :
  Forall Q s → Forall (Forall Q) (splitlines s).
Proof.
  remember (length s) as n eqn:Hn. revert s Hn.
  induction (lt_wf n) as [n _ IH]. intros [|c s] -> H; [constructor|].
  apply Forall_cons in H as [Hc H].
  assert (Forall (Forall Q) (splitlines s)) as Hs.
  { eapply IH; [|reflexivity|done]. simpl. lia. }
  simpl. destruct (is_linebreak c).
  - constructor; [constructor|]. destruct s as [|c' s'']; [constructor|].
    destruct (_ && _); [|done]. apply Forall_cons in H as [_ H].
    eapply IH; [|reflexivity|done]. simpl. lia.
  - destruct (splitlines s) as [|l ls]; [by repeat constructor|].
    apply Forall_cons in Hs as [Hl Hls]. constructor; [by constructor|done].
Qed.

Lemma join_Forall (Q : N → Prop) sep ls :
  Forall Q sep → Forall (Forall Q) ls → Forall Q (join sep ls).
Proof.
  intros Hsep. induction 1 as [|l ls Hl Hls IH]; [constructor|].
  destruct ls as [|l' ls]; [done|].
  change (join sep (l :: l' :: ls)) with (l ++ sep ++ join sep (l' :: ls)).
  by rewrite !Forall_app.
Qed.

Lemma read_node_encodable content :
  encodable content = true →
  encodable (type (read_node content)) = true
  ∧ encodable (parent (read_node content)) = true
  ∧ encodable (notes (read_node content)) = true.
Proof.
  intros H. apply encodable_Forall, splitlines_Forall in H.
  unfold read_node. destruct (splitlines content) as [|l0 [|l1 ls]]; simpl.
  - done.
  - apply Forall_cons in H as [H0 _].
    split_and!; [|done..]. by apply encodable_Forall, strip_by_Forall.
  - apply Forall_cons in H as [H0 [H1 Hls]%Forall_cons].
    split_and!; [by apply encodable_Forall, strip_by_Forall..|].
    case_bool_decide; [|done]. apply encodable_Forall, join_Forall; [|done].
    by repeat constructor.
Qed.

Section Rewrite.
Variable lower : list N → list N.

(** X6: a record that was read from text without surrogate, as every
    text decoded from a file is, and that is added again under its
    fields, with the force flag, is read as before, when its parent is
    not empty. *)
Theorem add_what_was_read data_dir name content fs :
  let n := read_node content in
  encodable content = true →
  parent n ≠ [] →
  let r := cmd_add lower data_dir
             (mkAdd name (type n) (Some (parent n)) (notes n) true) fs in
  res_code r = 0%Z
  ∧ read_node (read_text (res_fs r) (node_path lower name)) = n.
Proof.
  intros n He Hp.
  destruct (read_node_fields_shape content) as (Ht & Hpar & Hn).
  destruct (read_node_encodable content He) as (Et & Epar & En).
  fold n in Ht, Hpar, Hn, Et, Epar, En. unfold cmd_add.
  cbn [add_force add_name add_type add_parent add_notes].
  rewrite andb_false_r.
  rewrite (bool_decide_eq_false_2 (parent n = [])) by done.
  rewrite write_text_encodable by by apply encodable_record.
  cbn [res_code res_fs]. split; [done|].
  unfold read_text.
  destruct (mkdir fs) as [d|] eqn:Ed; [|by destruct fs].
  simpl. rewrite lookup_insert_eq. simpl.
  transitivity (mkNode (type n) (parent n) (notes n)); [|by destruct n].
  by apply read_node_written.
Qed.

End Rewrite.

(** ** Keys *)

Lemma filter_az09_all_not w :
  Forall (λ c, not_az09 c = true) w → filter (λ c, in_az09 c = true) w = [].
Proof.
  induction 1 as [|c w Hc _ IH]; [done|].
  rewrite filter_cons_False; [done|].
  unfold not_az09 in Hc. apply negb_true_iff in Hc. by rewrite Hc.
Qed.

Lemma re_sub_keeps_az09 cls b s :
  (∀ c, cls c = true → in_az09 c = false) →
  filter (λ c, in_az09 c = true) (re_sub_from cls [UNDERSCORE] b s)
  = filter (λ c, in_az09 c = true) s.
Proof.
  intros Hcls. revert b. induction s as [|c s IH]; intros b; [done|].
  simpl. destruct (cls c) eqn:Hc.
  - rewrite filter_app, IH.
    rewrite (filter_cons_False _ c) by (by rewrite (Hcls c Hc)).
    by destruct b.
  - destruct (in_az09 c) eqn:Ha.
    + by rewrite !filter_cons_True, IH by done.
    + by rewrite !filter_cons_False, IH by (by rewrite Ha).
Qed.

Lemma strip_by_keeps_az09 p s :
  (∀ c, p c = true → in_az09 c = false) →
  filter (λ c, in_az09 c = true) (strip_by p s)
  = filter (λ c, in_az09 c = true) s.
Proof.
  intros Hp. destruct (strip_by_split p s) as (w1 & w2 & H1 & H2 & E).
  rewrite E at 2. rewrite !filter_app.
  assert (∀ w, Forall (λ c, p c = true) w →
               filter (λ c, in_az09 c = true) w = []) as Hw.
  { intros w Hw. apply filter_az09_all_not.
    eapply Forall_impl; [exact Hw|]. intros c Hc. unfold not_az09.
    by rewrite (Hp c Hc). }
  by rewrite (Hw w1 H1), (Hw w2 H2), app_nil_r.
Qed.

Section Keys.
Variable lower : list N → list N.

(** X1: the key of a name is made of lowercase letters, digits and single
    underscores, has no underscore at either end, and its file name
    holds no slash and matches [*.txt]. *)
Theorem slugify_key_shape name :
  is_slug (slugify lower name)
  ∧ (SLASH ∉ node_path lower name)
  ∧ glob_txt (node_path lower name) = true.
Proof.
  pose proof (slugify_is_slug lower name) as Hs. split_and!; [done| |].
  - unfold node_path. rewrite elem_of_app. intros [Hin|Hin].
    + destruct Hs as [HF _]. rewrite Forall_forall in HF.
      specialize (HF _ Hin). by vm_compute in HF.
    + revert Hin. by_evaluation.
  - unfold glob_txt, node_path. apply bool_decide_eq_true.
    rewrite length_app. change (length (u ".txt")) with 4%nat.
    replace (length (slugify lower name) + 4 - 4)%nat
      with (length (slugify lower name)) by lia.
    by rewrite drop_app_length.
Qed.

(** X2: the letters and digits of the key are those of the lowercased
    name, in their order: the key is empty exactly when the lowercased
    name has none. *)
Theorem slugify_keeps_letters_digits name :
  filter (λ c, in_az09 c = true) (slugify lower name)
  = filter (λ c, in_az09 c = true) (lower name)
  ∧ (slugify lower name = [] ↔ Forall (λ c, in_az09 c = false) (lower name)).
Proof.
  assert (filter (λ c, in_az09 c = true) (slugify lower name)
          = filter (λ c, in_az09 c = true) (lower name)) as Hf.
  { rewrite slugify_slugify_ref. unfold slugify_ref, re_sub_plus.
    assert (∀ c, is_underscore c = true → in_az09 c = false) as Hu.
    { intros c ->%N.eqb_eq. done. }
    rewrite strip_by_keeps_az09 by done.
    rewrite re_sub_keeps_az09 by done.
    apply re_sub_keeps_az09. intros c Hc. by apply negb_true_iff. }
  split; [done|]. split.
  - intros E. rewrite E in Hf. apply Forall_forall. intros c Hc.
    destruct (in_az09 c) eqn:Ha; [|done].
    assert (c ∈ filter (λ c, in_az09 c = true) (lower name)) as Hin
      by (by apply list_elem_of_filter).
    rewrite <- Hf in Hin. by apply elem_of_nil in Hin.
  - apply slugify_no_az09.
Qed.

End Keys.

(** ** init, add and show *)

(** The text [init] writes is ASCII, so that its write does not fail. *)
Lemma cmd_init_written data_dir fs :
  cmd_init data_dir fs
  = mkResult (if negb (path_exists (mkdir fs) (u "README.txt"))
              then (λ d, <[u "README.txt" := README_TEXT]> d) <$> mkdir fs
              else mkdir fs)
      [u "Initialized data directory at: " ++ data_dir] 0.
Proof.
  unfold cmd_init. rewrite write_text_encodable by by vm_compute.
  by destruct (negb _).
Qed.

(** X7: [init] exits with status 0 and leaves a directory that holds
    [README.txt]; every file that was there keeps its text, an existing
    [README.txt] too, and a second [init] changes nothing. *)
Theorem init_keeps_files data_dir fs :
  let r := cmd_init data_dir fs in
  res_code r = 0%Z
  ∧ is_Some (res_fs r ≫= (.!! u "README.txt"))
  ∧ (∀ file text, fs ≫= (.!! file) = Some text →
                  res_fs r ≫= (.!! file) = Some text)
  ∧ (∀ file, file ≠ u "README.txt" → res_fs r ≫= (.!! file) = fs ≫= (.!! file))
  ∧ res_fs (cmd_init data_dir (res_fs r)) = res_fs r.
Proof.
  cbv zeta. rewrite !cmd_init_written. cbn [res_code res_fs].
  destruct fs as [d|]; cbn [mkdir path_exists].
  - destruct (d !! u "README.txt") as [t|] eqn:E.
    + rewrite bool_decide_eq_true_2 by eauto. cbn [negb mkdir path_exists].
      rewrite bool_decide_eq_true_2 by eauto. simpl. rewrite E.
      split_and!; eauto.
    + rewrite bool_decide_eq_false_2 by (by intros [? ?]).
      cbn [negb write_text fmap option_fmap option_map mkdir path_exists].
      rewrite bool_decide_eq_true_2 by (rewrite lookup_insert_eq; eauto).
      simpl. rewrite lookup_insert_eq. split_and!; eauto.
      * intros file text Hf. destruct (decide (file = u "README.txt")) as [->|Hne].
        -- congruence.
        -- by rewrite lookup_insert_ne.
      * intros file Hne. by rewrite lookup_insert_ne.
  - rewrite bool_decide_eq_false_2 by (rewrite lookup_empty; by intros [? ?]).
    cbn [negb write_text fmap option_fmap option_map mkdir path_exists].
    rewrite bool_decide_eq_true_2 by (rewrite lookup_insert_eq; eauto).
    simpl. rewrite lookup_insert_eq. split_and!; eauto; [done|].
    intros file Hne. by rewrite lookup_insert_ne, lookup_empty.
Qed.

Section AddShow.
Variable lower : list N → list N.

Lemma node_path_no_slash name : SLASH ∉ node_path lower name.
Proof.
  unfold node_path. rewrite elem_of_app. intros [Hin|Hin].
  - destruct (slugify_is_slug lower name) as [HF _].
    rewrite Forall_forall in HF. specialize (HF _ Hin). by vm_compute in HF.
  - revert Hin. by_evaluation.
Qed.

Lemma cmd_add_file_exists data_dir args fs :
  is_Some (res_fs (cmd_add lower data_dir args fs)
           ≫= (.!! node_path lower (add_name args))).
Proof.
  unfold cmd_add. set (path := node_path lower (add_name args)).
  destruct (path_exists (mkdir fs) path && negb (add_force args)) eqn:Hc;
    cbn [res_fs].
  - apply andb_true_iff in Hc as [He _].
    destruct (mkdir fs) as [d|]; [|done]. simpl in *.
    by apply bool_decide_eq_true in He.
  - unfold write_text.
    destruct (encodable _); cbn [res_fs];
      (destruct (mkdir fs) as [d|] eqn:Ed; [|by destruct fs]);
      simpl; rewrite lookup_insert_eq; eauto.
Qed.

(** X8: after [add], whether it wrote, refused or failed to encode, the
    file of the name is there, every other file is as it was, and file
    names still hold no slash. *)
Theorem add_touches_one_file data_dir args fs :
  let r := cmd_add lower data_dir args fs in
  is_Some (res_fs r ≫= (.!! node_path lower (add_name args)))
  ∧ (∀ file, file ≠ node_path lower (add_name args) →
             res_fs r ≫= (.!! file) = fs ≫= (.!! file))
  ∧ ((∀ d, fs = Some d → valid_names d) →
     ∀ d', res_fs r = Some d' → valid_names d').
Proof.
  cbv zeta. split; [apply cmd_add_file_exists|].
  unfold cmd_add. set (path := node_path lower (add_name args)).
  assert (∀ file, mkdir fs ≫= (.!! file) = fs ≫= (.!! file)) as Hmk.
  { intros file. destruct fs; [done|]. simpl. by rewrite lookup_empty. }
  assert ((∀ d, fs = Some d → valid_names d) →
          ∀ d, mkdir fs = Some d → valid_names d) as Hmkv.
  { intros Hv d Hd. destruct fs as [d0|]; injection Hd as <-; [by apply Hv|].
    intros file [? Hf]. by rewrite lookup_empty in Hf. }
  destruct (path_exists (mkdir fs) path && negb (add_force args)) eqn:Hc;
    cbn [res_fs].
  - split; [intros file _; apply Hmk | exact Hmkv].
  - unfold write_text.
    destruct (encodable _); cbn [res_fs];
      (destruct (mkdir fs) as [d|] eqn:Ed; [|by destruct fs]);
      simpl; split.
    all: try (intros file Hne; rewrite lookup_insert_ne by done;
              apply (Hmk file)).
    all: intros Hv d' [= <-] file [t Hf];
      (destruct (decide (file = path)) as [->|Hne];
       [apply node_path_no_slash|]);
      rewrite lookup_insert_ne in Hf by done;
      apply (Hmkv Hv d eq_refl); eauto.
Qed.

(** The parent [add] stores: the one given, or [-] when none or an
    empty one is given. *)
Lemma cmd_add_written data_dir args fs :
  add_force args = true ∨ path_exists fs (node_path lower (add_name args)) = false →
  let stored := match add_parent args with
                | Some (c :: p) => c :: p
                | _ => u "-"
                end in
  single_line (add_type args) → single_line stored → newline_only (add_notes args) →
  encodable (add_type args) = true → encodable stored = true →
  encodable (add_notes args) = true →
  let r := cmd_add lower data_dir args fs in
  res_code r = 0%Z
  ∧ read_node (read_text (res_fs r) (node_path lower (add_name args)))
    = mkNode (add_type args) stored (add_notes args).
Proof.
  intros Hw stored Ht Hp Hn Et Ep En. unfold cmd_add.
  rewrite (mkdir_exists _ _ _ Hw).
  assert (match add_parent args with
          | Some p => if bool_decide (p = []) then u "-" else p
          | None => u "-"
          end = stored) as ->.
  { subst stored. by destruct (add_parent args) as [[|c p]|]. }
  rewrite write_text_encodable by by apply encodable_record.
  cbn [res_code res_fs]. split; [done|].
  unfold read_text.
  destruct (mkdir fs) as [d|] eqn:Ed; [|by destruct fs].
  simpl. rewrite lookup_insert_eq. simpl.
  by apply read_node_written.
Qed.

(** X9: [show] after [add]: for fields that fit a record and hold no
    surrogate, so that [add] can encode them, [show] prints the name as
    typed, the type, the parent that was stored and the notes, or
    [(none)] for empty notes, and exits with status 0. *)
Theorem add_then_show data_dir args fs :
  add_force args = true ∨ path_exists fs (node_path lower (add_name args)) = false →
  let stored := match add_parent args with
                | Some (c :: p) => c :: p
                | _ => u "-"
                end in
  single_line (add_type args) → single_line stored → newline_only (add_notes args) →
  encodable (add_type args) = true → encodable stored = true →
  encodable (add_notes args) = true →
  let fs' := res_fs (cmd_add lower data_dir args fs) in
  cmd_show lower data_dir (add_name args) fs'
  = mkResult fs'
      [u "Name:   " ++ add_name args;
       u "Type:   " ++ add_type args;
       u "Parent: " ++ stored;
       u "Notes:";
       if bool_decide (add_notes args = []) then u "(none)" else add_notes args] 0.
Proof.
  intros Hw stored Ht Hp Hn Et Ep En fs'.
  destruct (cmd_add_written data_dir args fs Hw Ht Hp Hn Et Ep En)
    as [_ Hread].
  fold fs' in Hread. unfold cmd_show.
  assert (path_exists fs' (node_path lower (add_name args)) = true) as ->.
  { pose proof (cmd_add_file_exists data_dir args fs) as He.
    fold fs' in He. destruct fs' as [d|]; [|by destruct He].
    by apply bool_decide_eq_true. }
  cbn [negb]. by rewrite Hread.
Qed.

(** X20: [add] with a surrogate in the type, in the parent it stores or
    in the notes, where it is not refused, ends in
    [UnicodeEncodeError]: it prints nothing, the status is 1, and the
    file of the name is left empty, created or emptied by the opening
    for writing.  [show] then prints the defaults of an empty record:
    the type [Node], the parent [-] and no notes. *)
Theorem add_surrogate_empties data_dir args fs :
  add_force args = true ∨ path_exists fs (node_path lower (add_name args)) = false →
  let stored := match add_parent args with
                | Some (c :: p) => c :: p
                | _ => u "-"
                end in
  encodable (add_type args) && encodable stored && encodable (add_notes args)
  = false →
  let r := cmd_add lower data_dir args fs in
  res_exc r = Some UnicodeEncodeError
  ∧ res_code r = 1%Z
  ∧ res_out r = []
  ∧ res_fs r ≫= (.!! node_path lower (add_name args)) = Some []
  ∧ cmd_show lower data_dir (add_name args) (res_fs r)
    = mkResult (res_fs r)
        [u "Name:   " ++ add_name args; u "Type:   Node"; u "Parent: -";
         u "Notes:"; u "(none)"] 0.
Proof.
  intros Hw stored He r.
  assert (r = mkRaise ((λ d, <[node_path lower (add_name args) := []]> d)
                         <$> mkdir fs) [] UnicodeEncodeError) as ->.
  { subst r. unfold cmd_add. rewrite (mkdir_exists _ _ _ Hw).
    assert (match add_parent args with
            | Some p => if bool_decide (p = []) then u "-" else p
            | None => u "-"
            end = stored) as ->.
    { subst stored. by destruct (add_parent args) as [[|c p]|]. }
    unfold write_text. by rewrite encodable_record_fields, He. }
  cbn [res_exc res_code res_out res_fs].
  destruct (mkdir fs) as [d|] eqn:Ed; [|by destruct fs].
  cbn [fmap option_fmap option_map mbind option_bind].
  rewrite lookup_insert_eq. split_and!; [done..|].
  unfold cmd_show, path_exists, read_text.
  rewrite bool_decide_eq_true_2 by (rewrite lookup_insert_eq; eauto).
  cbn [negb mbind option_bind]. by rewrite lookup_insert_eq.
Qed.

End AddShow.

(** ** list *)

Section List.
Variable lower : list N → list N.

Lemma list_loop (d : gmap (list N) (list N)) (type_filter : option (list N))
    (paths : list (list N)) (out : list (list N)) (count : Z) :
  let keep path :=
    match type_filter with
    | Some (c :: t) => bool_decide (lower (type (record_node d path)) = lower (c :: t))
    | _ => true
    end in
  let lines := (λ path, list_line (stem path) (record_node d path))
               <$> filter (λ path, keep path = true) paths in
  foldl (list_step lower (Some d) type_filter) (out, count) paths
  = (out ++ lines, (count + Z.of_nat (length lines))%Z).
Proof.
  intros keep lines. subst lines. revert out count.
  induction paths as [|path paths IH]; intros out count.
  - simpl. by rewrite app_nil_r, Z.add_0_r.
  - cbn [foldl]. unfold list_step at 2. fold (record_node d path).
    assert (match type_filter with
            | Some (c :: t) =>
              negb (bool_decide (lower (type (record_node d path)) = lower (c :: t)))
            | _ => false
            end = negb (keep path)) as ->.
    { subst keep. cbv beta. by destruct type_filter as [[|c t]|]. }
    destruct (keep path) eqn:Hk; cbn [negb].
    + rewrite filter_cons_True by done.
      rewrite IH, <- app_assoc. f_equal. rewrite fmap_cons. simpl length. lia.
    + rewrite filter_cons_False by (by rewrite Hk). apply IH.
Qed.

(** X10: [list] prints one line per record file, in the order of the file
    names, for the records whose lowercased type is the lowercased
    filter (all of them without filter or with an empty one); when that
    leaves no line it prints [(no nodes)].  It exits with status 0 in
    a directory that exists and with status 1 otherwise. *)
Theorem cmd_list_lines (data_dir : list N) (type_filter : option (list N))
    (d : gmap (list N) (list N)) :
  let keep path :=
    match type_filter with
    | Some (c :: t) => bool_decide (lower (type (record_node d path)) = lower (c :: t))
    | _ => true
    end in
  let lines := (λ path, list_line (stem path) (record_node d path))
               <$> filter (λ path, keep path = true) (iter_nodes d) in
  cmd_list lower data_dir type_filter (Some d)
  = mkResult (Some d) (if lines is [] then [u "(no nodes)"] else lines) 0
  ∧ cmd_list lower data_dir type_filter None
    = mkResult None [u "No data directory: " ++ data_dir] 1.
Proof.
  cbv zeta. split; [|done]. unfold cmd_list.
  rewrite (list_loop d type_filter (iter_nodes d) [] 0). cbv zeta.
  set (lines := _ <$> filter _ (iter_nodes d)).
  destruct lines as [|l ls]; [done|].
  cbn [app length]. by rewrite app_nil_r.
Qed.

End List.

(** X11: the columns of a line of [list]: the key is never cut, and for a
    key of at most 30 characters the bracket of the type opens at
    column 32 and the rest of the line follows it. *)
Theorem list_line_columns name n :
  name `prefix_of` list_line name n
  ∧ ((length name ≤ 30)%nat →
     take 33 (list_line name n) = name ++ replicate (30 - length name) 32 ++ u "  ["
     ∧ drop 33 (list_line name n) = type n ++ u "]  parent=" ++ parent n)
  ∧ ((30 ≤ length name)%nat →
     list_line name n = name ++ u "  [" ++ type n ++ u "]  parent=" ++ parent n).
Proof.
  unfold list_line, ljust. split_and!.
  - rewrite <- !app_assoc. by eexists.
  - intros Hlen.
    assert (length (name ++ replicate (30 - length name) 32 ++ u "  [") = 33%nat)
      as Hl.
    { rewrite !length_app, length_replicate.
      change (length (u "  [")) with 3%nat. lia. }
    replace ((name ++ replicate (30 - length name) 32) ++
             u "  [" ++ type n ++ u "]  parent=" ++ parent n)
      with ((name ++ replicate (30 - length name) 32 ++ u "  [") ++
            type n ++ u "]  parent=" ++ parent n)
      by (by rewrite <- !app_assoc).
    rewrite <- Hl. by rewrite take_app_length, drop_app_length.
  - intros Hlen. replace (30 - length name)%nat with 0%nat by lia.
    simpl. by rewrite app_nil_r.
Qed.

(** ** The index of any directory *)

(** X14: [iter_nodes] yields the files of the directory that match [*.txt],
    each once, in the code-point order of their names. *)
Theorem iter_nodes_sorted (d : gmap (list N) (list N)) :
  StronglySorted (λ a b, str_leb a b = true) (iter_nodes d)
  ∧ NoDup (iter_nodes d)
  ∧ ∀ file, file ∈ iter_nodes d ↔ glob_txt file = true ∧ is_Some (d !! file).
Proof.
  split_and!.
  - apply (sort_by_sorted id).
  - unfold iter_nodes. rewrite sort_by_Permutation.
    apply NoDup_filter, NoDup_fst_map_to_list.
  - apply elem_of_iter_nodes.
Qed.

Lemma dict_get_dict_set nodes k v k' :
  dict_get (dict_set nodes k v) k'
  = if decide (k' = k) then Some v else dict_get nodes k'.
Proof.
  induction nodes as [|[k0 v0] nodes IH]; simpl.
  - by repeat case_decide.
  - destruct (decide (k = k0)) as [->|Hne]; simpl.
    + by repeat case_decide.
    + rewrite IH. repeat case_decide; congruence.
Qed.

Lemma listed_names_append (children : Children) (g : option (list N))
    (x : list N) :
  listed_names (<[g := default [] (children !! g) ++ [x]]> children)
  ≡ₚ x :: listed_names children.
Proof.
  unfold listed_names. destruct (children !! g) as [l|] eqn:E; simpl.
  - rewrite <- insert_delete_eq.
    rewrite map_to_list_insert by apply lookup_delete_eq.
    rewrite <- (map_to_list_delete children g l E).
    rewrite !fmap_cons. simpl. rewrite <- app_assoc.
    symmetry. apply Permutation_middle.
  - by rewrite map_to_list_insert by done.
Qed.

Lemma listed_names_sorted (key : list N → list N) (children : Children) :
  listed_names (sort_by key <$> children) ≡ₚ listed_names children.
Proof.
  unfold listed_names. rewrite map_to_list_fmap.
  induction (map_to_list children) as [|[g l] ms IH]; [done|].
  rewrite !fmap_cons. simpl. by rewrite IH, sort_by_Permutation.
Qed.

Section AnyIndex.
Variable lower : list N → list N.
Variable d : gmap (list N) (list N).

(** The loop of [build_index], with no condition on the keys: a key
    stands for the last file of that stem, and a child list holds the
    stems of the files of its group, one entry per file. *)
Lemma index_loop_any paths :
  let r := foldl (index_step (Some d)) ([], ∅) paths in
  (∀ k, dict_get r.1 k
        = record_node d <$> last (filter (λ path, stem path = k) paths))
  ∧ (∀ g, default [] (r.2 !! g)
          = stem <$> filter (λ path, parent_group (record_node d path) = g) paths)
  ∧ listed_names r.2 ≡ₚ stem <$> paths.
Proof.
  induction paths as [|path paths IH] using rev_ind.
  - simpl. split_and!; [done| |done]. intros g. by rewrite lookup_empty.
  - cbv zeta in *. rewrite foldl_snoc.
    destruct (foldl (index_step (Some d)) ([], ∅) paths) as [nodes children].
    destruct IH as (IHn & IHc & IHl). unfold index_step.
    fold (record_node d path). cbn [fst snd] in *. split_and!.
    + intros k. rewrite dict_get_dict_set, filter_app, last_app, IHn.
      case_decide as Hk.
      * subst k. by rewrite filter_cons_True.
      * rewrite filter_cons_False by congruence. done.
    + intros g. rewrite filter_app, fmap_app.
      destruct (decide (parent_group (record_node d path) = g)) as [<-|Hne].
      * rewrite lookup_insert_eq. simpl. rewrite IHc.
        by rewrite filter_cons_True.
      * rewrite lookup_insert_ne by done. rewrite IHc.
        rewrite filter_cons_False by done. by rewrite app_nil_r.
    + rewrite listed_names_append, IHl, fmap_app. simpl.
      by rewrite <- Permutation_cons_append.
Qed.

(** X15: whatever the directory holds, the child lists of the index list
    the stems of its record files, one entry for each file over all the
    lists, and the keys of [nodes] are these stems. *)
Theorem build_index_lists_every_file :
  listed_names (build_index lower d).2 ≡ₚ stem <$> iter_nodes d
  ∧ (∀ k, is_Some (dict_get (build_index lower d).1 k) ↔ k ∈ stem <$> iter_nodes d)
  ∧ length (listed_names (build_index lower d).2) = length (iter_nodes d).
Proof.
  pose proof (index_loop_any (iter_nodes d)) as H. cbv zeta in H.
  unfold build_index.
  destruct (foldl (index_step (Some d)) ([], ∅) (iter_nodes d))
    as [nodes children].
  destruct H as (Hn & _ & Hl). cbn [fst snd] in *.
  assert (listed_names (sort_by lower <$> children) ≡ₚ stem <$> iter_nodes d)
    as Hperm by (by rewrite listed_names_sorted).
  split_and!; [done| |by rewrite Hperm, length_fmap].
  intros k. rewrite Hn, list_elem_of_fmap. split.
  - intros [n Hk]. apply fmap_Some in Hk as (path & Hlast & _).
    apply last_Some_elem_of, list_elem_of_filter in Hlast as [Hs Hin]. eauto.
  - intros (path & -> & Hin).
    destruct (last (filter (λ p, stem p = stem path) (iter_nodes d))) eqn:E;
      [by eexists|].
    apply last_None in E.
    by destruct (filter_nil_not_elem_of _ _ path E).
Qed.

End AnyIndex.

(** ** From the commands to the index *)

Lemma dict_get_elem nodes k v : dict_get nodes k = Some v → (k, v) ∈ nodes.
Proof.
  induction nodes as [|[k0 v0] nodes IH]; simpl; [done|].
  destruct (decide (k = k0)) as [->|Hne].
  - intros [= ->]. left.
  - intros H. right. auto.
Qed.

Lemma slug_no_dot k : is_slug k → 46 ∉ k.
Proof.
  intros [HF _] Hin. rewrite Forall_forall in HF. specialize (HF _ Hin).
  by vm_compute in HF.
Qed.

(** Among the files that match [*.txt], the file of a key that is not
    empty is the only one with that key as stem. *)
Lemma slug_stem_file (k file : list N) :
  is_slug k → k ≠ [] → glob_txt file = true →
  stem file = k ↔ file = k ++ u ".txt".
Proof.
  intros Hk Hne Hg. split; [|intros ->; by apply stem_txt].
  destruct (glob_txt_split file Hg) as [k' ->].
  destruct (decide (k' = [])) as [->|Hk'].
  - change (stem ([] ++ u ".txt")) with (u ".txt"). intros <-.
    destruct (slug_no_dot _ Hk). left.
  - rewrite stem_txt by done. by intros ->.
Qed.

Lemma filter_none {A} (P : A → Prop) `{!∀ x, Decision (P x)} (l : list A) :
  Forall (λ x, ¬ P x) l → filter P l = [].
Proof.
  induction 1 as [|x l Hx _ IH]; [done|]. by rewrite filter_cons_False.
Qed.

Lemma glob_txt_key (k : list N) : glob_txt (k ++ u ".txt") = true.
Proof.
  unfold glob_txt. apply bool_decide_eq_true. rewrite length_app.
  change (length (u ".txt")) with 4%nat.
  replace (length k + 4 - 4)%nat with (length k) by lia.
  by rewrite drop_app_length.
Qed.

Lemma slug_stem_filter (d : gmap (list N) (list N)) (k : list N) :
  is_slug k → k ≠ [] →
  filter (λ path, stem path = k) (iter_nodes d)
  = if decide (is_Some (d !! (k ++ u ".txt"))) then [k ++ u ".txt"] else [].
Proof.
  intros Hk Hne.
  assert (NoDup (iter_nodes d)) as Hnd.
  { unfold iter_nodes. rewrite sort_by_Permutation.
    apply NoDup_filter, NoDup_fst_map_to_list. }
  pose proof (glob_txt_key k) as Hglob.
  assert (∀ path, path ∈ iter_nodes d → stem path = k ↔ path = k ++ u ".txt") as Hst.
  { intros path [Hg _]%elem_of_iter_nodes. by apply slug_stem_file. }
  case_decide as Hex.
  - assert (k ++ u ".txt" ∈ iter_nodes d) as Hin by (by apply elem_of_iter_nodes).
    revert Hnd Hin Hst. generalize (iter_nodes d) as l.
    induction l as [|x l IH]; [by intros _ ?%elem_of_nil|].
    intros [Hx Hnd]%NoDup_cons Hin Hst.
    destruct (decide (x = k ++ u ".txt")) as [->|Hxk].
    + rewrite filter_cons_True by (apply Hst; [left|done]). f_equal.
      apply filter_none. apply Forall_forall. intros y Hy Hs.
      apply Hst in Hs; [|by right]. by subst.
    + rewrite filter_cons_False. 2:{ intros Hs. apply Hst in Hs; [done|left]. }
      apply elem_of_cons in Hin as [Hin|Hin]; [congruence|].
      apply IH; [done..|]. intros y Hy. apply Hst. by right.
  - apply filter_none. apply Forall_forall. intros y Hy Hs.
    apply Hst in Hs; [|done]. subst y.
    by apply elem_of_iter_nodes in Hy as [_ Hy].
Qed.

Section CommandsIndex.
Variable lower : list N → list N.

Lemma build_index_get (d : gmap (list N) (list N)) (k : list N) :
  is_slug k → k ≠ [] →
  dict_get (build_index lower d).1 k
  = if decide (is_Some (d !! (k ++ u ".txt")))
    then Some (record_node d (k ++ u ".txt")) else None.
Proof.
  intros Hk Hne. pose proof (index_loop_any d (iter_nodes d)) as H.
  cbv zeta in H. unfold build_index.
  destruct (foldl (index_step (Some d)) ([], ∅) (iter_nodes d))
    as [nodes children].
  destruct H as (Hn & _ & _). cbn [fst snd] in *.
  rewrite Hn, slug_stem_filter by done. by case_decide.
Qed.

Lemma build_index_group (d : gmap (list N) (list N)) (g : option (list N)) :
  default [] ((build_index lower d).2 !! g)
  = sort_by lower
      (stem <$> filter (λ path, parent_group (record_node d path) = g)
                       (iter_nodes d)).
Proof.
  pose proof (index_loop_any d (iter_nodes d)) as H.
  cbv zeta in H. unfold build_index.
  destruct (foldl (index_step (Some d)) ([], ∅) (iter_nodes d))
    as [nodes children].
  destruct H as (_ & Hc & _). cbn [fst snd] in *.
  rewrite lookup_fmap, <- Hc. by destruct (children !! g).
Qed.

(** X16: a node that [add] has written under a key that is not empty,
    from a type and a parent that fit on one line without white space
    around them, notes whose only line boundary is the newline, and no
    surrogate in any of them, is in the index with the fields given:
    [nodes] holds it under its key, the key is in the child list of the
    parent that was stored, and for the parent [-] it is one of the
    roots of [tree]. *)
Theorem add_then_index (data_dir : list N) (args : add_args) (fs : filesystem)
    (d' : gmap (list N) (list N)) :
  add_force args = true ∨ path_exists fs (node_path lower (add_name args)) = false →
  let stored := match add_parent args with
                | Some (c :: p) => c :: p
                | _ => u "-"
                end in
  single_line (add_type args) → single_line stored → newline_only (add_notes args) →
  encodable (add_type args) = true → encodable stored = true →
  encodable (add_notes args) = true →
  slugify lower (add_name args) ≠ [] →
  res_fs (cmd_add lower data_dir args fs) = Some d' →
  let key := slugify lower (add_name args) in
  dict_get (build_index lower d').1 key
  = Some (mkNode (add_type args) stored (add_notes args))
  ∧ key ∈ default [] ((build_index lower d').2
                      !! (if bool_decide (stored = u "-") then None else Some stored))
  ∧ (stored = u "-" → key ∈ tree_roots lower (build_index lower d').1).
Proof.
  intros Hw stored Ht Hp Hn Et Ep En Hkey Hd' key.
  destruct (cmd_add_written lower data_dir args fs Hw Ht Hp Hn Et Ep En)
    as [_ Hread].
  pose proof (cmd_add_file_exists lower data_dir args fs) as Hex.
  rewrite Hd' in Hread, Hex. simpl in Hex.
  fold (record_node d' (node_path lower (add_name args))) in Hread.
  unfold node_path in *. fold key in Hread, Hex.
  assert (is_slug key) as Hslug by apply slugify_is_slug.
  assert (dict_get (build_index lower d').1 key
          = Some (mkNode (add_type args) stored (add_notes args))) as Hget.
  { rewrite build_index_get by done. rewrite decide_True by done.
    by rewrite Hread. }
  assert (stored ≠ []) as Hne.
  { subst stored. by destruct (add_parent args) as [[|c p]|]. }
  assert (parent_group (mkNode (add_type args) stored (add_notes args))
          = if bool_decide (stored = u "-") then None else Some stored) as Hg.
  { unfold parent_group. cbn [parent].
    rewrite (bool_decide_eq_true_2 (stored ≠ [])) by done.
    by repeat case_bool_decide. }
  split_and!; [done| |].
  - rewrite build_index_group, elem_of_sort_by, list_elem_of_fmap.
    exists (key ++ u ".txt"). split; [by rewrite stem_txt|].
    apply list_elem_of_filter. split; [by rewrite Hread|].
    apply elem_of_iter_nodes. split; [apply glob_txt_key | done].
  - intros Hs. unfold tree_roots. rewrite elem_of_sort_by, list_elem_of_fmap.
    eexists (key, _). split; [done|]. apply list_elem_of_filter.
    split; [|by apply dict_get_elem]. cbn [snd]. apply is_root_parent.
    cbn [parent]. by right.
Qed.


End CommandsIndex.

(** ** Line ends *)

Lemma splitlines_break c s :
  is_linebreak c = true → c ≠ CR → splitlines (c :: s) = [] :: splitlines s.
Proof.
  intros Hb Hc%N.eqb_neq. cbn [splitlines]. rewrite Hb, Hc. by destruct s.
Qed.

Lemma splitlines_universal_newlines s :
  splitlines (universal_newlines s) = splitlines s.
Proof.
  remember (length s) as n eqn:Hn. revert s Hn.
  induction (lt_wf n) as [n _ IH]. intros [|c s] ->; [done|].
  assert (splitlines (universal_newlines s) = splitlines s) as IHs.
  { eapply IH; [|reflexivity]. simpl. lia. }
  cbn [universal_newlines]. destruct (N.eqb_spec c CR) as [->|Hc].
  - destruct s as [|c' s'']; [done|].
    destruct (N.eqb_spec c' NL) as [->|Hc'].
    + rewrite (splitlines_break NL) by done. cbn [splitlines]. simpl. f_equal.
      eapply IH; [|reflexivity]. simpl. lia.
    + rewrite (splitlines_break NL), IHs by done. cbn [splitlines].
      change (is_linebreak CR) with true. cbv iota.
      apply N.eqb_neq in Hc'. by rewrite Hc', andb_false_r.
  - destruct (is_linebreak c) eqn:Hb.
    + by rewrite !splitlines_break, IHs by done.
    + cbn [splitlines]. by rewrite Hb, IHs.
Qed.

(** X5: the translation of line ends on reading does not show in the node:
    a record whose lines end in [\r\n] or [\r] is read as the record
    with [\n]. *)
Theorem read_node_line_ends content :
  read_node (universal_newlines content) = read_node content.
Proof. unfold read_node. by rewrite splitlines_universal_newlines. Qed.

(** ** add, edit and show *)

Section Edit.
Variable lower : list N → list N.
Variable run_editor : list N → list N → filesystem → option (Z * filesystem).


End Edit.

(** ** The loop over the roots *)

Section Reachable.
Variable nodes : list (list N * Node).
Variable index : Children.
Variable start : list N.
Hypothesis index_names : ∀ c, c ∈ listed_names index → head c ≠ Some SLASH.
Hypothesis reach_acyclic :
  ∀ n, rtc (child_of index) start n → ¬ tc (child_of index) n n.

Lemma display_terminates_reachable (universe : list (list N)) :
  (∀ c, c ∈ listed_names index → c ∈ universe) →
  ∀ (fuel : nat) (anc : list (list N)) (name prefix : list N)
    (children : Children),
    same_children index children →
    head name ≠ Some SLASH →
    rtc (child_of index) start name →
    NoDup anc →
    (∀ a, a ∈ anc → rtc (child_of index) a name) →
    (∀ a, a ∈ anc → a ∈ universe) →
    (length universe < fuel + length anc)%nat →
    ∃ children' out,
      display fuel nodes name prefix children = Some (children', out)
      ∧ same_children index children'.
Proof.
  intros Huniv fuel.
  induction fuel as [|fuel IH];
    intros anc name prefix children Hsame Hname Hreach Hnd Hanc Hin Hlen.
  - pose proof (submseteq_length _ _ (NoDup_submseteq _ _ Hnd Hin)). simpl in *. lia.
  - assert (∀ (rest : list (list N)) (i len : nat) (children : Children),
              (∀ c, c ∈ rest → child_of index name c) →
              same_children index children →
              ∃ children' out,
                display_children (display fuel nodes) prefix len i rest children
                = Some (children', out)
                ∧ same_children index children') as Hloop.
    { clear children Hsame.
      intros rest. induction rest as [|c rest IHrest];
        intros i len children Hsub Hsame.
      { simpl. eauto. }
      assert (child_of index name c) as Hc by (apply Hsub; left).
      assert (rtc (child_of index) start c) as Hrc by (by eapply rtc_r).
      destruct (IH (c :: anc) c
                  (prefix ++ if bool_decide (i = len - 1)%nat
                             then u "└─ " else u "├─ ") children)
        as (children1 & out1 & E1 & Hsame1); [done| |done| | | | |].
      - apply index_names. by eapply child_of_listed.
      - constructor; [|done]. intros Hca.
        apply (reach_acyclic c Hrc). eapply tc_rtc_l; [by apply Hanc|].
        by apply tc_once.
      - intros a [->|Ha]%elem_of_cons; [done|].
        eapply rtc_r; [by apply Hanc|done].
      - intros a [->|Ha]%elem_of_cons; [|by apply Hin].
        apply Huniv. by eapply child_of_listed.
      - simpl. lia.
      - destruct (IHrest (S i) len children1) as (children2 & out2 & E2 & Hsame2);
          [by intros x Hx; apply Hsub; right | done |].
        cbn [display_children]. rewrite E1. simpl. rewrite E2. simpl. eauto. }
    rewrite display_unfold.
    destruct (Hloop (dual_lookup children name) 0%nat
                (length (dual_lookup children name))
                (lookup_kids children name).1)
      as (children' & out & E & Hsame').
    + intros c Hc. apply dual_lookup_child_of. by rewrite <- (Hsame name Hname).
    + intros n Hn. rewrite lookup_kids_dual_lookup by done. by apply Hsame.
    + rewrite E. simpl. eauto.
Qed.

End Reachable.

Lemma tc_last_step {A} (R : relation A) x z :
  tc R x z → ∃ y, rtc R x y ∧ R y z.
Proof.
  induction 1 as [x z Hxz|x y z Hxy _ (w & Hyw & Hwz)].
  - by exists x.
  - exists w. split; [by eapply rtc_l|done].
Qed.

Section Roots.
Variable lower : list N → list N.
Variable d : gmap (list N) (list N).
Hypothesis d_keys : distinct_keys d.
Hypothesis d_names : valid_names d.

(** The group that lists a key is the group of the one file of that
    key. *)
Lemma listed_group (g : option (list N)) (c : list N) :
  c ∈ default [] ((build_index lower d).2 !! g) →
  ∃ path, path ∈ iter_nodes d ∧ stem path = c
          ∧ parent_group (record_node d path) = g.
Proof.
  rewrite build_index_group, elem_of_sort_by, list_elem_of_fmap.
  intros (path & -> & [Hg Hin]%list_elem_of_filter). eauto.
Qed.

Lemma group_unique (g1 g2 : option (list N)) (c : list N) :
  c ∈ default [] ((build_index lower d).2 !! g1) →
  c ∈ default [] ((build_index lower d).2 !! g2) → g1 = g2.
Proof.
  intros (p1 & Hin1 & Hs1 & <-)%listed_group (p2 & Hin2 & Hs2 & <-)%listed_group.
  by rewrite (NoDup_fmap_eq stem _ p1 p2 d_keys Hin1 Hin2) by congruence.
Qed.

Lemma child_of_key (p c : list N) :
  child_of (build_index lower d).2 p c →
  ∃ key, (key = SLASH :: p ∨ key = p)
         ∧ c ∈ default [] ((build_index lower d).2 !! Some key).
Proof. intros [H|H]%elem_of_app; eauto. Qed.

Lemma parent_unique (p q c : list N) :
  head p ≠ Some SLASH → head q ≠ Some SLASH →
  child_of (build_index lower d).2 p c →
  child_of (build_index lower d).2 q c → p = q.
Proof.
  intros Hp Hq (k1 & Hk1 & H1)%child_of_key (k2 & Hk2 & H2)%child_of_key.
  pose proof (group_unique _ _ _ H1 H2) as [= E].
  destruct Hk1 as [-> | ->], Hk2 as [-> | ->]; subst; try done.
  by injection E.
Qed.

Lemma root_key (r : list N) :
  r ∈ tree_roots lower (build_index lower d).1 →
  r ∈ default [] ((build_index lower d).2 !! None).
Proof.
  pose proof (build_index_spec lower d d_keys) as H.
  destruct (build_index lower d) as [nodes children] eqn:E.
  destruct H as [-> Hch]. cbn [fst snd]. intros Hr.
  rewrite Hch. unfold tree_roots in Hr.
  by rewrite (roots_of_records d None) in Hr.
Qed.

Lemma root_no_parent (r p : list N) :
  r ∈ tree_roots lower (build_index lower d).1 →
  ¬ child_of (build_index lower d).2 p r.
Proof.
  intros Hr%root_key (key & _ & Hc)%child_of_key.
  by pose proof (group_unique _ _ _ Hr Hc).
Qed.

Lemma listed_no_slash (c : list N) :
  c ∈ listed_names (build_index lower d).2 → head c ≠ Some SLASH.
Proof.
  intros Hc. apply (stem_no_slash d c d_names).
  by apply (proj2 (build_index_names lower d)).
Qed.

Lemma root_no_slash (r : list N) :
  r ∈ tree_roots lower (build_index lower d).1 → head r ≠ Some SLASH.
Proof.
  intros Hr%tree_roots_keys. apply (stem_no_slash d r d_names).
  by apply (proj1 (build_index_names lower d)).
Qed.

Lemma reachable_no_slash (r n : list N) :
  r ∈ tree_roots lower (build_index lower d).1 →
  rtc (child_of (build_index lower d).2) r n → head n ≠ Some SLASH.
Proof.
  intros Hr Hn. destruct (rtc_inv_r _ _ Hn) as [->|(q & _ & Hq)].
  - by apply root_no_slash.
  - apply listed_no_slash. by eapply child_of_listed.
Qed.

(** No cycle is reached from a root: a key has one parent, and a root
    has none. *)
Lemma root_reach_acyclic (r n : list N) :
  r ∈ tree_roots lower (build_index lower d).1 →
  rtc (child_of (build_index lower d).2) r n →
  ¬ tc (child_of (build_index lower d).2) n n.
Proof.
  intros Hr. revert n. apply rtc_ind_r.
  - intros (y & _ & Hy)%tc_last_step. by apply (root_no_parent r y).
  - intros n m Hrn Hnm IH Hcyc. destruct (tc_last_step _ _ _ Hcyc) as (y & Hmy & Hym).
    assert (y = n) as ->.
    { apply (parent_unique y n m); [| |done..].
      - eapply reachable_no_slash; [done|]. etrans; [|exact Hmy].
        by eapply rtc_r.
      - by eapply reachable_no_slash. }
    apply IH. eapply tc_rtc_r; [by apply tc_once|done].
Qed.

Lemma display_roots_ends (roots : list (list N)) (children : Children) :
  (∀ r, r ∈ roots → r ∈ tree_roots lower (build_index lower d).1) →
  same_children (build_index lower d).2 children →
  ∃ children' out,
    display_roots
      (display (S (length (listed_names (build_index lower d).2)))
         (build_index lower d).1) roots children
    = Some (children', out)
    ∧ same_children (build_index lower d).2 children'.
Proof.
  revert children. induction roots as [|r roots IH]; intros children Hroots Hsame.
  - simpl. eauto.
  - assert (r ∈ tree_roots lower (build_index lower d).1) as Hr
      by (apply Hroots; left).
    destruct (display_terminates_reachable (build_index lower d).1
                (build_index lower d).2 r listed_no_slash
                (λ n, root_reach_acyclic r n Hr)
                (r :: listed_names (build_index lower d).2)
                (λ c Hc, list_elem_of_further _ _ _ Hc)
                (S (length (listed_names (build_index lower d).2)))
                [r] r [] children)
      as (children1 & out1 & E1 & Hsame1).
    + done.
    + by apply root_no_slash.
    + done.
    + apply NoDup_singleton.
    + by intros a ->%list_elem_of_singleton.
    + intros a ->%list_elem_of_singleton. left.
    + simpl. lia.
    + destruct (IH children1) as (children2 & out2 & E2 & Hsame2);
        [by intros x Hx; apply Hroots; right | done |].
      cbn [display_roots]. rewrite E1. cbn [mbind option_bind].
      rewrite E2. cbn [mbind option_bind]. eauto.
Qed.

(** X19: [tree] without a root always ends, with status 0, in a directory
    whose records have distinct keys and whose file names hold no
    slash: a cycle of parents is never below a root, so that only
    [tree -r] can run into one. *)
Theorem tree_roots_terminates (data_dir : list N) :
  ∃ out,
    cmd_tree lower (S (length (listed_names (build_index lower d).2)))
      data_dir None (Some d) = Some (out, 0%Z).
Proof.
  unfold cmd_tree.
  destruct (display_roots_ends (tree_roots lower (build_index lower d).1)
              (build_index lower d).2) as (children' & out & E & _).
  - done.
  - by intros n Hn.
  - destruct (build_index lower d) as [nodes children]. cbn [fst snd] in E.
    cbv beta iota zeta. cbn [snd]. rewrite E. cbn [mbind option_bind]. eauto.
Qed.

End Roots.

(** ** The lines of [display] *)

Section Lines.
Variable nodes : list (list N * Node).
Variable index : Children.
Hypothesis index_names : ∀ c, c ∈ listed_names index → head c ≠ Some SLASH.




End Lines.

(** ** Instances of the further properties *)

Lemma read_node_one_line_witness :
  read_node (u "  Kingdom " ++ [NL]) = mkNode (strip (u "  Kingdom ")) (u "-") []
  ∧ read_node (u "  Kingdom ")
    = mkNode (if bool_decide (u "  Kingdom " = []) then u "Node"
              else strip (u "  Kingdom ")) (u "-") [].
Proof. apply (read_node_one_line (u "  Kingdom ")). by_evaluation. Defined.

Lemma add_what_was_read_witness :
  let n := read_node (u " Kingdom " ++ [NL] ++ u " rohan" ++ [CR; NL]
                      ++ u "Golden hall" ++ [NL]) in
  let r := cmd_add lower_latin1 (u "/data")
             (mkAdd (u "Edoras") (type n) (Some (parent n)) (notes n) true)
             world_fs in
  res_code r = 0%Z
  ∧ read_node (read_text (res_fs r) (node_path lower_latin1 (u "Edoras"))) = n.
Proof.
  apply (add_what_was_read lower_latin1 (u "/data") (u "Edoras")
           (u " Kingdom " ++ [NL] ++ u " rohan" ++ [CR; NL]
            ++ u "Golden hall" ++ [NL]) world_fs).
  - by vm_compute.
  - by vm_compute.
Defined.

Lemma helms_deep_fields :
  single_line (add_type helms_deep) ∧ single_line (u "rohan")
  ∧ newline_only (add_notes helms_deep).
Proof.
  split_and!; [split; [by_evaluation | by vm_compute]..|by_evaluation].
Qed.

Lemma add_then_show_witness :
  let fs' := res_fs (cmd_add lower_latin1 (u "/data") helms_deep world_fs) in
  cmd_show lower_latin1 (u "/data") (u "Helm's Deep") fs'
  = mkResult fs'
      [u "Name:   Helm's Deep"; u "Type:   Fortress"; u "Parent: rohan";
       u "Notes:"; u "The Hornburg." ++ [NL] ++ u "Held against Saruman."] 0.
Proof.
  destruct helms_deep_fields as (Ht & Hp & Hn).
  apply (add_then_show lower_latin1 (u "/data") helms_deep world_fs);
    [right; by vm_compute | done | done | done | by vm_compute..].
Defined.

Lemma add_surrogate_empties_witness :
  let r := cmd_add lower_latin1 (u "/data")
             (mkAdd (u "Rohan") (u "King" ++ [0xDC80] ++ u "dom") None [] true)
             world_fs in
  res_exc r = Some UnicodeEncodeError
  ∧ res_code r = 1%Z
  ∧ res_out r = []
  ∧ res_fs r ≫= (.!! u "rohan.txt") = Some []
  ∧ cmd_show lower_latin1 (u "/data") (u "Rohan") (res_fs r)
    = mkResult (res_fs r)
        [u "Name:   Rohan"; u "Type:   Node"; u "Parent: -";
         u "Notes:"; u "(none)"] 0.
Proof.
  apply (add_surrogate_empties lower_latin1 (u "/data")
           (mkAdd (u "Rohan") (u "King" ++ [0xDC80] ++ u "dom") None [] true)
           world_fs).
  - by left.
  - by vm_compute.
Defined.


Lemma add_then_index_witness :
  let d' := default ∅ (res_fs (cmd_add lower_latin1 (u "/data") helms_deep world_fs)) in
  dict_get (build_index lower_latin1 d').1 (u "helm_s_deep")
  = Some (mkNode (u "Fortress") (u "rohan")
            (u "The Hornburg." ++ [NL] ++ u "Held against Saruman."))
  ∧ u "helm_s_deep" ∈ default [] ((build_index lower_latin1 d').2 !! Some (u "rohan")).
Proof.
  destruct helms_deep_fields as (Ht & Hp & Hn).
  destruct (add_then_index lower_latin1 (u "/data") helms_deep world_fs
              (default ∅ (res_fs (cmd_add lower_latin1 (u "/data") helms_deep
                                    world_fs))))
    as (Hget & Hkid & _);
    [right; by vm_compute | done | done | done | by vm_compute.. |].
  split; [exact Hget | exact Hkid].
Defined.




Lemma cycle_root_dir_valid : valid_names cycle_root_dir.
Proof.
  intros file [text Hf]. revert file text Hf.
  change (map_Forall (λ file _, SLASH ∉ file) cycle_root_dir).
  by_evaluation.
Qed.

Lemma cycle_root_dir_distinct : distinct_keys cycle_root_dir.
Proof. by_evaluation. Qed.

Lemma tree_roots_terminates_witness :
  ∃ out,
    cmd_tree lower_latin1
      (S (length (listed_names (build_index lower_latin1 cycle_root_dir).2)))
      (u "/data") None (Some cycle_root_dir) = Some (out, 0%Z).
Proof.
  apply (tree_roots_terminates lower_latin1 cycle_root_dir
           cycle_root_dir_distinct cycle_root_dir_valid).
Defined.

(** The cycle beside the root is not printed, and [tree -r a] still
    runs into it. *)
Example tree_beside_cycle :
  cmd_tree lower_latin1 5 (u "/data") None (Some cycle_root_dir)
  = Some ([u "shire [Region]"; u "└─ bree [Town]"; []], 0%Z).
Proof. by vm_compute. Qed.
